(** * find-uos-codes.js: the extraction-and-resolution pipeline

    A shallow embedding of [src/find-uos-codes.js] and the properties of its
    record-number extractor, lookup resolver, row result assembler and
    output projector. *)

From Stdlib Require Import ZArith NArith Lia.
From stdpp Require Import base tactics option list sorting strings gmap.

Local Open Scope Z_scope.

(** ** JavaScript strings

    A JavaScript string is a sequence of UTF-16 code units; comparison with
    [<] and the character classes of a regular expression without the [u]
    flag both work on code units. *)

Module JS.

Definition jsstring : Type := list N.

(** A string literal of the source, for ASCII text. *)
Definition lit (s : string) : jsstring :=
  map Ascii.N_of_ascii (String.list_ascii_of_string s).

(** [a < b] on strings: lexicographic on code units, a proper prefix first. *)
Fixpoint str_ltb (a b : jsstring) : bool :=
  match a, b with
  | _, [] => false
  | [], _ :: _ => true
  | x :: a', y :: b' =>
      if (x <? y)%N then true
      else if (y <? x)%N then false
      else str_ltb a' b'
  end.

Definition str_lt (a b : jsstring) : Prop := str_ltb a b = true.
Definition str_le (a b : jsstring) : Prop := str_ltb b a = false.

(** *** Character classes *)

(** [[A-Z]] *)
Definition is_upper (c : N) : bool := ((65 <=? c) && (c <=? 90))%N.

(** [\d] and [[0-9]] *)
Definition is_digit (c : N) : bool := ((48 <=? c) && (c <=? 57))%N.

(** [\s]: WhiteSpace and LineTerminator of ECMAScript (2016 and later). *)
Definition is_space (c : N) : bool :=
  ((9 <=? c) && (c <=? 13) || (c =? 32) || (c =? 160) || (c =? 5760)
   || (8192 <=? c) && (c <=? 8202) || (c =? 8232) || (c =? 8233)
   || (c =? 8239) || (c =? 8287) || (c =? 12288) || (c =? 65279))%N.

(** *** Regular expressions

    A pattern is a backtracking matcher in continuation-passing style: it is
    run at the start of [s] and answers the length of the match or [None].
    [times n p k] is [p{n}] followed by [k], [star p k] is the greedy [p*]
    followed by [k] (longest first, then shorter), [accept] ends the
    pattern. *)

Definition matcher : Type := jsstring -> option nat.

Definition accept : matcher := fun _ => Some 0%nat.

Fixpoint times (n : nat) (p : N -> bool) (k : matcher) (s : jsstring)
  : option nat :=
  match n with
  | O => k s
  | S n' =>
      match s with
      | c :: s' => if p c then S <$> times n' p k s' else None
      | [] => None
      end
  end.

Fixpoint star (p : N -> bool) (k : matcher) (s : jsstring) : option nat :=
  match s with
  | c :: s' =>
      if p c then
        match star p k s' with
        | Some n => Some (S n)
        | None => k s
        end
      else k s
  | [] => k s
  end.

(** [String.prototype.match] with a global pattern: the scan starts at index
    0, every match is collected, the next attempt starts where the match
    ended (one further after an empty match), and a position without a match
    is passed over.  [skip] counts the code units still covered by the
    previous match. *)
Fixpoint exec_all (re : matcher) (skip : nat) (s : jsstring) : list jsstring :=
  match skip with
  | S k =>
      match s with
      | [] => []
      | _ :: s' => exec_all re k s'
      end
  | O =>
      match re s with
      | Some n =>
          take n s ::
            match s with
            | [] => []
            | _ :: s' => exec_all re (pred n) s'
            end
      | None =>
          match s with
          | [] => []
          | _ :: s' => exec_all re 0%nat s'
          end
      end
  end.

(** The result of [s.match(re)] is [null] when nothing matched. *)
Definition String_match (re : matcher) (s : jsstring)
  : option (list jsstring) :=
  match exec_all re 0%nat s with
  | [] => None
  | ms => Some ms
  end.

(** [s.replace(x, '')] with a one-character string [x]: the first occurrence
    only. *)
Fixpoint replace_first (x : N) (s : jsstring) : jsstring :=
  match s with
  | [] => []
  | c :: s' => if (c =? x)%N then s' else c :: replace_first x s'
  end.

(** [s.substr(1)] *)
Definition substr1 (s : jsstring) : jsstring := drop 1 s.

(** [a.join(sep)]; an [undefined] element is written as the empty string. *)
Fixpoint join (sep : jsstring) (a : list (option jsstring)) : jsstring :=
  match a with
  | [] => []
  | [x] => default [] x
  | x :: rest => default [] x ++ sep ++ join sep rest
  end.

End JS.

Import JS.

(** ** The lodash functions the program uses, on the values it passes *)

Module Lodash.

(** [_.max([a, b])] on two integers. *)
Definition max (a b : Z) : Z := Z.max a b.

(** [_.drop(array, n)] and [_.take(array, n)]: a negative [n] counts as 0. *)
Definition drop {A} (array : list A) (n : Z) : list A :=
  list.drop (Z.to_nat n) array.
Definition take {A} (array : list A) (n : Z) : list A :=
  list.take (Z.to_nat n) array.

(** [_fp.filter(_fp.identity)]: [null] and [undefined] are dropped, arrays
    (also empty ones) are kept. *)
Definition filter_identity {A} (array : list (option A)) : list A :=
  omap id array.

(** [_fp.flattenDeep] on an array of arrays of strings. *)
Definition flattenDeep (array : list (list jsstring)) : list jsstring :=
  concat array.

(** [_fp.sortBy(_fp.identity)] on strings: a stable ascending sort under the
    [<] of strings. *)
Fixpoint sort_insert (x : jsstring) (sorted : list jsstring) : list jsstring :=
  match sorted with
  | [] => [x]
  | y :: rest => if str_ltb y x then y :: sort_insert x rest else x :: sorted
  end.

Definition sortBy_identity (array : list jsstring) : list jsstring :=
  foldr sort_insert [] array.

(** [_fp.sortedUniq]: a value is kept when it is the first or differs from
    the last one kept. *)
Fixpoint baseSortedUniq (seen : option jsstring) (array : list jsstring)
  : list jsstring :=
  match array with
  | [] => []
  | value :: rest =>
      if decide (seen = Some value) then baseSortedUniq seen rest
      else value :: baseSortedUniq (Some value) rest
  end.

Definition sortedUniq (array : list jsstring) : list jsstring :=
  baseSortedUniq None array.

(** [_fp.uniq]: a value is pushed onto [result] unless [result] has it. *)
Fixpoint baseUniq {A} `{EqDecision A} (result array : list A) : list A :=
  match array with
  | [] => result
  | value :: rest =>
      if decide (value ∈ result) then baseUniq result rest
      else baseUniq (result ++ [value]) rest
  end.

Definition uniq {A} `{EqDecision A} (array : list A) : list A :=
  baseUniq [] array.

End Lodash.

(** ** The program *)

(** [a[i]] for an integer [i]: [undefined] out of range. *)
Definition index {A} (a : list A) (i : Z) : option A :=
  if i <? 0 then None else a !! Z.to_nat i.

(** [a[i] = v] on an array that may have holes ([None]): the array grows up
    to [i] when [i] is past its end.  The indices of an array are the
    integers from 0 to 2^32 - 2; any other [i] names a property of the
    object and no element, and the elements stay as they are. *)
Definition array_set {A} (a : list (option A)) (i : Z) (v : A)
  : list (option A) :=
  if (i <? 0) || (4294967295 <=? i) then a
  else
    let n := Z.to_nat i in
    if (n <? length a)%nat then <[n := Some v]> a
    else a ++ replicate (n - length a)%nat None ++ [Some v].

(** A cell is truthy when it is there and is not the empty string. *)
Definition truthy (cell : option jsstring) : bool :=
  match cell with
  | Some (_ :: _) => true
  | _ => false
  end.

(** The command line: [--skip], [--column] and [--result-column], as
    integers. *)
Record options := {
  skip : Z;
  column : Z;
  result_column : Z;
}.

Definition recordNumberColumn (o : options) : Z := Lodash.max (column o - 1) 0.
Definition resultColumn (o : options) : Z :=
  Lodash.max (result_column o - 1) (-1).
Definition wantsPrependedResults (o : options) : bool := resultColumn o =? -1.

(** The value the mapping holds for a record number: the array of codes, or
    a string (a course field or the record number). *)
Inductive resolution :=
  | Codes (uosCodes : list jsstring)
  | Text (s : jsstring).

#[global] Instance resolution_eq_dec : EqDecision resolution.
Proof. solve_decision. Defined.

(** A row object.  [recordNumbers] is [None] while it is [undefined] or
    [null] (the program only tests it for truth); [results] is [None] while
    it is [undefined]; an element of [results] is [None] when it is
    [undefined]. *)
Record row := {
  cells : list jsstring;
  recordNumbers : option (list jsstring);
  results : option (list (option jsstring));
}.

Definition set_recordNumbers (v : option (list jsstring)) (x : row) : row :=
  {| cells := cells x; recordNumbers := v; results := results x |}.
Definition set_results (v : list (option jsstring)) (x : row) : row :=
  {| cells := cells x; recordNumbers := recordNumbers x; results := Some v |}.

(** [loadInputFile]: one row object [{ cells: data }] per record of the
    input, in the order read.  A row object is named by its position in
    [inputData]; the list is the store of the row objects, which the later
    steps change in place. *)
Definition loadInputFile (data : list (list jsstring)) : list row :=
  map (fun d => {| cells := d; recordNumbers := None; results := None |}) data.

(** What [csvStringify.write] is given: a row of cells, a hole being
    [None]. *)
Abbreviation written := (list (option jsstring)).

(** [/r(\d{7})/g] and [/([A-Z]{4}\s*[0-9]{4})/g] *)
Definition recordNumberRegEx : matcher :=
  times 1 (N.eqb 114) (times 7 is_digit accept).
Definition uosCodeRegEx : matcher :=
  times 4 is_upper (star is_space (times 4 is_digit accept)).

Section Program.

(** The store: its state, the error it can reject with, and [t.any] with
    the query of [findUosCode], which takes the record number without its
    [r] and answers with the [field_content] of the course fields, in the
    order of the store.  [connect] is the connection [sierraDb.task] takes
    before it runs its callback: [Some e] when the store rejects it. *)
Context {DB E : Type}.
Variable t_any : DB -> jsstring -> DB * (E + list jsstring).
Variable connect : DB -> DB * option E.

Inductive error :=
  | TypeError
  | StoreError (e : E).

(** What a run has done with the store: its state and the queries sent, each
    with its answer, oldest first. *)
Record world := {
  db : DB;
  queries : list (jsstring * (E + list jsstring));
}.

(** A step of the promise chain: it may use the store and may be rejected. *)
Definition M (A : Type) : Type := world -> world * (error + A).

Definition ret {A} (a : A) : M A := fun w => (w, inr a).
Definition bind {A B} (m : M A) (k : A -> M B) : M B :=
  fun w =>
    match m w with
    | (w', inl e) => (w', inl e)
    | (w', inr a) => k a w'
    end.
Definition lift {A} (r : error + A) : M A := fun w => (w, r).

Notation "'let!' x ':=' m 'in' k" := (bind m (fun x => k))
  (at level 10, x name, m at level 100, k at level 200).

Definition query (arg : jsstring) : M (list jsstring) :=
  fun w =>
    let '(db', answer) := t_any (db w) arg in
    ({| db := db'; queries := queries w ++ [(arg, answer)] |},
     match answer with
     | inl e => inl (StoreError e)
     | inr courseFields => inr courseFields
     end).

(** [for (let x of refs) { body }] over row objects, changing them in
    place; the loop ends at the first body that throws.  Every position the
    program loops over has its row object, so the last case does not
    occur. *)
Fixpoint forOf (refs : list nat) (body : row -> error + row)
    (inputData : list row) : error + list row :=
  match refs with
  | [] => inr inputData
  | r :: rest =>
      match inputData !! r with
      | Some x =>
          match body x with
          | inl e => inl e
          | inr x' => forOf rest body (<[r := x']> inputData)
          end
      | None => forOf rest body inputData
      end
  end.

(** The row objects of [array], as positions. *)
Definition refs_of (array : list row) : list nat := seq 0 (length array).

(** The [rowsToProcess] of [augmentInputDataWithRecordNumbers]: the rows past
    the skipped ones and, with a result column, those of them whose result
    cell is not truthy. *)
Definition rowsToProcess (o : options) (inputData : list row) : list nat :=
  let rowsToProcess := Lodash.drop (refs_of inputData) (skip o) in
  if negb (wantsPrependedResults o) then
    filter (fun r => ¬ Is_true (truthy (x ← inputData !! r;
                                        index (cells x) (resultColumn o))))
           rowsToProcess
  else rowsToProcess.

(** Reading [x.cells[recordNumberColumn].match] throws a [TypeError] when
    the row has no such cell. *)
Definition augmentInputDataWithRecordNumbers (o : options)
    (inputData : list row) : error + list row :=
  forOf (rowsToProcess o inputData)
    (fun x =>
       match index (cells x) (recordNumberColumn o) with
       | None => inl TypeError
       | Some cell =>
           inr (set_recordNumbers (String_match recordNumberRegEx cell) x)
       end)
    inputData.

(** The codes of the course fields of one record, and what the mapping gets
    for the record number. *)
Definition uosCodes (courseFields : list jsstring) : list jsstring :=
  Lodash.sortedUniq
    (Lodash.sortBy_identity
       (map (replace_first 32)
          (Lodash.flattenDeep
             (Lodash.filter_identity
                (map (String_match uosCodeRegEx) courseFields))))).

Definition resolve (recordNumber : jsstring) (courseFields : list jsstring)
  : resolution :=
  let uosCodes := uosCodes courseFields in
  if (0 <? length uosCodes)%nat then Codes uosCodes
  else
    match courseFields with
    | first :: _ => Text first
    | [] => Text recordNumber
    end.

Record state := {
  inputData : list row;
  mapping : gmap jsstring resolution;
}.

Definition uniqSetOfRecordNumbers (inputData : list row) : list jsstring :=
  Lodash.sortedUniq
    (Lodash.sortBy_identity
       (Lodash.flattenDeep
          (Lodash.filter_identity (map recordNumbers inputData)))).

(** The loop of the task: one query for each record number, in turn; the
    first rejected query ends the task. *)
Fixpoint task (recordNumbers : list jsstring)
    (mapping : gmap jsstring resolution) : M (gmap jsstring resolution) :=
  match recordNumbers with
  | [] => ret mapping
  | recordNumber :: rest =>
      let! courseFields := query (substr1 recordNumber) in
      task rest (<[recordNumber := resolve recordNumber courseFields]> mapping)
  end.

(** [sierraDb.task(cb)]: the task takes its connection, then runs [cb] on
    it and ends as [cb] does.  Without a connection the task is rejected and
    [cb] does not run.  Giving the connection back afterwards cannot be
    rejected and is not modelled. *)
Definition sierraDb_task {A} (cb : M A) : M A :=
  fun w =>
    match connect (db w) with
    | (db', Some e) =>
        ({| db := db'; queries := queries w |}, inl (StoreError e))
    | (db', None) => cb {| db := db'; queries := queries w |}
    end.

Definition findUosCode (inputData : list row) : M state :=
  let! mapping := sierraDb_task (task (uniqSetOfRecordNumbers inputData) ∅) in
  ret {| inputData := inputData; mapping := mapping |}.

(** [_fp.flattenDeep] on what [mapping.get] gave: an array of codes is
    spliced in, a string and [undefined] stay. *)
Definition flatten_resolutions (array : list (option resolution))
  : list (option jsstring) :=
  concat
    (map (fun v =>
            match v with
            | Some (Codes uosCodes) => map Some uosCodes
            | Some (Text s) => [Some s]
            | None => [None]
            end)
         array).

(** The [rowsToProcess] of [augmentInputDataWithResults]: the rows with
    truthy [recordNumbers]. *)
Definition rowsWithRecordNumbers (inputData : list row) : list nat :=
  filter (fun r => is_Some (x ← inputData !! r; recordNumbers x))
         (refs_of inputData).

Definition augmentInputDataWithResults (st : state) : error + state :=
  match
    forOf (rowsWithRecordNumbers (inputData st))
      (fun row =>
         inr (set_results
                (Lodash.uniq
                   (flatten_resolutions
                      (map (fun x => mapping st !! x)
                           (default [] (recordNumbers row)))))
                row))
      (inputData st)
  with
  | inr rows => inr {| inputData := rows; mapping := mapping st |}
  | inl e => inl e
  end.

Definition outputInExistingColumn (o : options) (st : state) : list written :=
  map (fun x => Some [] :: map Some (cells x))
      (Lodash.take (inputData st) (skip o))
  ++
  map (fun x =>
         match results x with
         | Some results =>
             array_set (map Some (cells x)) (resultColumn o)
                       (join (lit ", ") results)
         | None => map Some (cells x)
         end)
      (Lodash.drop (inputData st) (skip o)).

Definition outputInNewColumn (o : options) (st : state) : list written :=
  map (fun x => map Some (cells x))
      (Lodash.take (inputData st) (skip o))
  ++
  map (fun x =>
         match results x with
         | Some results => Some (join (lit ", ") results) :: map Some (cells x)
         | None => Some [] :: map Some (cells x)
         end)
      (Lodash.drop (inputData st) (skip o)).

(** The promise chain of the program, from the parsed input to the rows
    written; a rejected step skips the rest. *)
Definition main (o : options) (data : list (list jsstring))
  : M (list written) :=
  let! inputData :=
    lift (augmentInputDataWithRecordNumbers o (loadInputFile data)) in
  let! st := findUosCode inputData in
  let! st := lift (augmentInputDataWithResults st) in
  ret (if wantsPrependedResults o then outputInNewColumn o st
       else outputInExistingColumn o st).

End Program.

Arguments error : clear implicits.
Arguments world : clear implicits.
Arguments M : clear implicits.

(** ** What the properties are stated with *)

(** The shapes the two patterns match. *)
Definition is_record_number (m : jsstring) : Prop :=
  ∃ d, m = 114%N :: d ∧ length d = 7%nat ∧ Forall (fun c => is_digit c) d.

Definition is_uos_code (m : jsstring) : Prop :=
  ∃ u ws d,
    m = u ++ ws ++ d
    ∧ length u = 4%nat ∧ Forall (fun c => is_upper c) u
    ∧ Forall (fun c => is_space c) ws
    ∧ length d = 4%nat ∧ Forall (fun c => is_digit c) d.

(** The matches of a global scan of [s] for the shape [P], as the words
    describe them: the leftmost substring of shape [P], then the matches of
    what follows it; no substring that starts before a match, in the gap
    [g], has the shape. *)
Inductive scan (P : jsstring -> Prop) : jsstring -> list jsstring -> Prop :=
  | scan_none s :
      (∀ i n, ¬ P (take n (drop i s))) ->
      scan P s []
  | scan_match g m rest ms :
      P m ->
      (∀ i n, (i < length g)%nat -> ¬ P (take n (drop i (g ++ m ++ rest)))) ->
      scan P rest ms ->
      scan P (g ++ m ++ rest) (m :: ms).

(** Deduplication that keeps the first occurrence of each value, in the
    original order: the element at position [i] stays exactly when it does
    not occur at an earlier position. *)
Definition first_occurrences {A} `{EqDecision A} (l : list A) : list A :=
  omap id (imap (fun i x => if decide (x ∈ take i l) then None else Some x) l).

(** The flattening of one resolution. *)
Definition codes_of (v : resolution) : list jsstring :=
  match v with
  | Codes uosCodes => uosCodes
  | Text s => [s]
  end.

(** The queries a run has sent, from the world before and after it. *)
Definition sent {DB E} (w w' : world DB E)
  : list (jsstring * (E + list jsstring)) :=
  drop (length (queries w)) (queries w').

(** [y[j]] on a written row: [undefined] for a hole and past the end. *)
Definition cell_at (y : written) (j : nat) : option jsstring := mjoin (y !! j).

(** A row is processed when it is past the skipped rows and, with a result
    column, its result cell is blank. *)
Definition processed (o : options) (i : nat) (d : list jsstring) : Prop :=
  (Z.to_nat (skip o) <= i)%nat
  ∧ (wantsPrependedResults o = true ∨ truthy (index d (resultColumn o)) = false).

#[global] Instance processed_dec o i d : Decision (processed o i d).
Proof. unfold processed. apply _. Defined.

(** The row object of the [i]-th record [d] after the extraction step. *)
Definition extracted (o : options) (i : nat) (d : list jsstring) : row :=
  {| cells := d;
     recordNumbers :=
       if decide (processed o i d) then
         cell ← index d (recordNumberColumn o);
         String_match recordNumberRegEx cell
       else None;
     results := None |}.

(** A row object after the assembly step, for the mapping [m]. *)
Definition assembled (m : gmap jsstring resolution) (x : row) : row :=
  match recordNumbers x with
  | Some rns =>
      set_results
        (first_occurrences (flatten_resolutions (map (fun rn => m !! rn) rns)))
        x
  | None => x
  end.

(** The row written for the row object [x] at position [i], by each of the
    two output steps. *)
Definition written_new (o : options) (i : nat) (x : row) : written :=
  if decide (i < Z.to_nat (skip o))%nat then map Some (cells x)
  else
    match results x with
    | Some results => Some (join (lit ", ") results) :: map Some (cells x)
    | None => Some [] :: map Some (cells x)
    end.

Definition written_existing (o : options) (i : nat) (x : row) : written :=
  if decide (i < Z.to_nat (skip o))%nat then Some [] :: map Some (cells x)
  else
    match results x with
    | Some results =>
        array_set (map Some (cells x)) (resultColumn o)
                  (join (lit ", ") results)
    | None => map Some (cells x)
    end.

(** A code written with a tab between the letters and the digits. *)
Definition tabbed_code : jsstring := [65; 66; 67; 68; 9; 49; 50; 51; 52]%N.

(** A store for the examples: record 1006349 has two course fields, record
    1006370 none, record 1006371 one field without a code, record 1006372 a
    field with a code written with two spaces and one with a tab; any other
    query is rejected. *)
Definition example_store (d : unit) (arg : jsstring)
  : unit * (nat + list jsstring) :=
  (tt,
   if decide (arg = lit "1006349") then
     inr [lit "Unit ABCD 1234 readings"; lit "ABCD1234; AAAA0000"]
   else if decide (arg = lit "1006370") then inr []
   else if decide (arg = lit "1006371") then inr [lit "see the handbook"]
   else if decide (arg = lit "1006372") then
     inr [lit "ABCD  1234"; tabbed_code]
   else inl 500%nat).

(** The store of the examples gives its connection; [refusing_connect] is a
    store that cannot be reached. *)
Definition example_connect (d : unit) : unit * option nat := (d, None).
Definition refusing_connect (d : unit) : unit * option nat := (d, Some 503%nat).

Definition start : world unit nat := {| db := tt; queries := [] |}.

(** The store of the scenario of the description: record 1006349 has the
    code once with a space and once without, record 1006370 has no course
    field. *)
Definition scenario_store (d : unit) (arg : jsstring)
  : unit * (nat + list jsstring) :=
  (tt,
   if decide (arg = lit "1006349") then inr [lit "ABCD 1234"; lit "ABCD1234"]
   else if decide (arg = lit "1006370") then inr []
   else inl 404%nat).

(** Inputs for the examples: a header and rows that name the records of the
    store above, one of them twice and one row without a record number; and
    an input with a record the store rejects. *)
Definition example_options : options :=
  {| skip := 1; column := 1; result_column := 0 |}.
Definition example_data : list (list jsstring) :=
  [ [lit "id"; lit "name"];
    [lit "r1006349 r1006370"; lit "x"];
    [lit "'r1006371'; r1006349"; lit "y"];
    [lit "none"; lit "z"] ].
Definition example_rows : list row :=
  imap (extracted example_options) example_data.
Definition rejected_data : list (list jsstring) :=
  [ [lit "id"]; [lit "r1234567"]; [lit "r1006349"]; [lit "r9999999"] ].
Definition rejected_rows : list row :=
  imap (extracted example_options) rejected_data.

(** The exit status of the process: 0 after the chain has run to its end, 1
    from the [catch] of a rejected step. *)
Definition exit_code {E A} (outcome : error E + A) : Z :=
  match outcome with
  | inr _ => 0
  | inl _ => 1
  end.

(** A state with a row that names a record number twice. *)
Definition repeated_state : state :=
  {| inputData :=
       [{| cells := [lit "r1006349 r1006370 r1006349"];
           recordNumbers :=
             Some [lit "r1006349"; lit "r1006370"; lit "r1006349"];
           results := None |}];
     mapping :=
       <[lit "r1006349" := Codes [lit "AAAA0000"; lit "ABCD1234"]]>
         (<[lit "r1006370" := Text (lit "r1006370")]> ∅) |}.

(** An input for in-place mode, with the results in the third column: a
    header, a row with a blank result cell, a row with a filled one and a
    row without a record number and without the cell. *)
Definition in_place_options : options :=
  {| skip := 1; column := 1; result_column := 3 |}.
Definition in_place_data : list (list jsstring) :=
  [ [lit "id"; lit "name"; lit "codes"];
    [lit "r1006349 r1006370"; lit "x"; []];
    [lit "r1006371"; lit "y"; lit "done"];
    [lit "none"; lit "z"] ].

(** A result column that is no array index: [resultColumn] is 2^32 - 1. *)
Definition far_options : options :=
  {| skip := 1; column := 1; result_column := 4294967296 |}.

(** Normalization as the description has it: all the whitespace of a match
    is taken out. *)
Definition strip_whitespace (m : jsstring) : jsstring :=
  filter (B:=list N) (fun c => ¬ Is_true (is_space c)) m.

(** ** The order of strings, sorting and deduplication *)

Section StringOrder.

Lemma str_ltb_irrefl a : str_ltb a a = false.
Proof.
  induction a as [|x a IH]; simpl; [done|].
  by rewrite N.ltb_irrefl.
Qed.

Lemma str_ltb_asym a b : str_ltb a b = true -> str_ltb b a = false.
Proof.
  revert b; induction a as [|x a IH]; intros [|y b]; simpl; try done.
  destruct (N.ltb_spec x y), (N.ltb_spec y x); try done; try lia.
  apply IH.
Qed.

Lemma str_ltb_trans a b c :
  str_ltb a b = true -> str_ltb b c = true -> str_ltb a c = true.
Proof.
  revert b c; induction a as [|x a IH]; intros [|y b] [|z c]; simpl; try done.
  destruct (N.ltb_spec x y), (N.ltb_spec y x), (N.ltb_spec y z),
    (N.ltb_spec z y), (N.ltb_spec x z), (N.ltb_spec z x);
    try done; try lia.
  apply IH.
Qed.

Lemma str_ltb_connex a b :
  str_ltb a b = false -> str_ltb b a = false -> a = b.
Proof.
  revert b; induction a as [|x a IH]; intros [|y b]; simpl; try done.
  destruct (N.ltb_spec x y), (N.ltb_spec y x); try done.
  intros Hab Hba. assert (x = y) as -> by lia. f_equal. by apply IH.
Qed.

Lemma str_le_lt_eq a b : str_le a b <-> a = b ∨ str_lt a b.
Proof.
  unfold str_le, str_lt. split.
  - intros Hba. destruct (str_ltb a b) eqn:Hab; [by right|].
    left. by apply str_ltb_connex.
  - intros [->|Hab]; [apply str_ltb_irrefl | by apply str_ltb_asym].
Qed.

Lemma str_lt_le_trans a b c : str_lt a b -> str_le b c -> str_lt a c.
Proof.
  intros Hab [->|Hbc]%str_le_lt_eq; [done|].
  by apply str_ltb_trans with b.
Qed.

Lemma str_le_trans a b c : str_le a b -> str_le b c -> str_le a c.
Proof.
  intros [->|Hab]%str_le_lt_eq Hbc; [done|].
  apply str_le_lt_eq. right. by apply str_lt_le_trans with b.
Qed.

Lemma str_lt_neq a b : str_lt a b -> a ≠ b.
Proof. intros Hab ->. unfold str_lt in Hab. by rewrite str_ltb_irrefl in Hab. Qed.

End StringOrder.

Section Sorting.

Import Lodash.

Lemma sort_insert_perm x l : sort_insert x l ≡ₚ x :: l.
Proof.
  induction l as [|y l IH]; simpl; [done|].
  destruct (str_ltb y x); [|done].
  rewrite IH. apply Permutation_swap.
Qed.

Lemma sort_insert_sorted x l :
  StronglySorted str_le l -> StronglySorted str_le (sort_insert x l).
Proof.
  induction 1 as [|y l Hl IH Hy]; simpl.
  - repeat constructor.
  - destruct (str_ltb y x) eqn:Hyx.
    + constructor; [done|].
      rewrite sort_insert_perm. constructor; [|done].
      apply str_le_lt_eq. by right.
    + constructor; [by constructor|].
      constructor; [done|].
      eapply Forall_impl; [exact Hy|].
      intros z Hz. by apply str_le_trans with y.
Qed.

Lemma sortBy_identity_perm l : sortBy_identity l ≡ₚ l.
Proof.
  induction l as [|x l IH]; simpl; [done|].
  by rewrite sort_insert_perm, IH.
Qed.

Lemma sortBy_identity_sorted l : StronglySorted str_le (sortBy_identity l).
Proof.
  induction l as [|x l IH]; simpl; [constructor|].
  by apply sort_insert_sorted.
Qed.

Lemma baseSortedUniq_spec l :
  StronglySorted str_le l ->
  ∀ seen,
    (∀ s, seen = Some s -> Forall (str_le s) l) ->
    StronglySorted str_lt (baseSortedUniq seen l)
    ∧ (∀ s, seen = Some s -> Forall (str_lt s) (baseSortedUniq seen l))
    ∧ (∀ x, x ∈ baseSortedUniq seen l -> x ∈ l)
    ∧ (∀ x, x ∈ l -> x ∈ baseSortedUniq seen l ∨ seen = Some x).
Proof.
  induction 1 as [|value rest Hrest IH Hvalue]; intros seen Hseen; simpl.
  - repeat split; try constructor; try done.
  - destruct (decide (seen = Some value)) as [->|Hne].
    + destruct (IH (Some value)) as (Hs & Hlt & Hsub & Hsup).
      { by intros s [= <-]. }
      repeat split; try done.
      * intros x Hx. right. by apply Hsub.
      * intros x [->|Hx]%elem_of_cons; [by right|]. by apply Hsup.
    + destruct (IH (Some value)) as (Hs & Hlt & Hsub & Hsup).
      { by intros s [= <-]. }
      specialize (Hlt value eq_refl).
      repeat split.
      * by constructor.
      * intros s ->. specialize (Hseen s eq_refl).
        apply Forall_cons in Hseen as [Hsv _].
        assert (str_lt s value) as Hs'.
        { apply str_le_lt_eq in Hsv as [->|?]; done. }
        constructor; [done|].
        eapply Forall_impl; [exact Hlt|].
        intros z Hz. apply str_lt_le_trans with value; [done|].
        apply str_le_lt_eq. by right.
      * intros x [->|Hx]%elem_of_cons; [left|right; by apply Hsub].
      * intros x [->|Hx]%elem_of_cons; left; [left|].
        destruct (Hsup x Hx) as [?|[= ->]]; [by right|left].
Qed.

Lemma StronglySorted_str_lt_NoDup l : StronglySorted str_lt l -> NoDup l.
Proof.
  induction 1 as [|x l Hl IH Hx]; constructor; [|done].
  intros Hin. rewrite Forall_forall in Hx.
  by apply (str_lt_neq x x); [apply Hx|].
Qed.

(** Sorting and then collapsing equal neighbours leaves each value once, in
    strictly ascending order. *)
Lemma sortedUniq_sortBy l :
  StronglySorted str_lt (sortedUniq (sortBy_identity l))
  ∧ NoDup (sortedUniq (sortBy_identity l))
  ∧ ∀ x, x ∈ sortedUniq (sortBy_identity l) <-> x ∈ l.
Proof.
  destruct (baseSortedUniq_spec (sortBy_identity l)
              (sortBy_identity_sorted l) None) as (Hs & _ & Hsub & Hsup);
    [done|].
  split; [done|]. split; [by apply StronglySorted_str_lt_NoDup|].
  intros x. rewrite <- (sortBy_identity_perm l) at 2. split; [apply Hsub|].
  intros Hx. by destruct (Hsup x Hx).
Qed.

End Sorting.

Section Uniq.

Context {A : Type} `{EqDecision A}.

Lemma baseUniq_positions (l result : list A) :
  Lodash.baseUniq result l
  = result
    ++ omap id (imap (fun i x =>
                        if decide (x ∈ result ++ take i l) then None
                        else Some x) l).
Proof.
  revert result; induction l as [|x rest IH]; intros result; simpl.
  { by rewrite app_nil_r. }
  rewrite app_nil_r.
  destruct (decide (x ∈ result)) as [Hx|Hx]; simpl; rewrite IH.
  - f_equal. f_equal. apply imap_ext. intros i y _. simpl.
    apply decide_ext. rewrite !elem_of_app, elem_of_cons.
    split; [tauto|]. intros [?|[->|?]]; tauto.
  - rewrite <- app_assoc. simpl. do 3 f_equal.
    apply imap_ext. intros i y _. simpl.
    by rewrite <- app_assoc.
Qed.

(** [_fp.uniq] keeps the first occurrence of each value, in the original
    order. *)
Lemma uniq_first_occurrences (l : list A) : Lodash.uniq l = first_occurrences l.
Proof. unfold Lodash.uniq. by rewrite baseUniq_positions. Qed.

Lemma baseUniq_NoDup (l result : list A) :
  NoDup result ->
  NoDup (Lodash.baseUniq result l)
  ∧ ∀ x, x ∈ Lodash.baseUniq result l <-> x ∈ result ∨ x ∈ l.
Proof.
  revert result; induction l as [|y rest IH]; intros result Hnd; simpl.
  { split; [done|]. intros x. rewrite elem_of_nil. tauto. }
  destruct (decide (y ∈ result)) as [Hy|Hy].
  - destruct (IH result Hnd) as [H1 H2]. split; [done|].
    intros x. rewrite H2, elem_of_cons.
    split; [tauto|]. intros [?|[->|?]]; tauto.
  - destruct (IH (result ++ [y])) as [H1 H2].
    { apply NoDup_app. split; [done|]. split; [|apply NoDup_singleton].
      intros x Hx ->%list_elem_of_singleton. done. }
    split; [done|].
    intros x. rewrite H2, elem_of_app, list_elem_of_singleton, elem_of_cons.
    tauto.
Qed.

Lemma first_occurrences_NoDup (l : list A) :
  NoDup (first_occurrences l) ∧ ∀ x, x ∈ first_occurrences l <-> x ∈ l.
Proof.
  rewrite <- uniq_first_occurrences.
  destruct (baseUniq_NoDup l []) as [H1 H2]; [constructor|].
  split; [done|]. intros x. rewrite H2, elem_of_nil. tauto.
Qed.

End Uniq.

(** ** The two patterns *)

Section Patterns.

Lemma times_Some n p k s m :
  times n p k s = Some m
  <-> ∃ a rest j,
        s = a ++ rest ∧ length a = n ∧ Forall (fun c => p c) a
        ∧ k rest = Some j ∧ m = (n + j)%nat.
Proof.
  revert s m; induction n as [|n IH]; intros s m; simpl.
  - split.
    + intros Hk. exists [], s, m. by repeat split.
    + intros ([|] & rest & j & -> & Hlen & _ & Hk & ->); by simplify_eq/=.
  - split.
    + destruct s as [|c s]; [done|].
      destruct (p c) eqn:Hc; [|done].
      destruct (times n p k s) as [m'|] eqn:Hm'; [|done].
      intros [= <-]. apply IH in Hm' as (a & rest & j & -> & <- & Ha & Hk & ->).
      exists (c :: a), rest, j. repeat split; try done.
      constructor; [by rewrite Hc|done].
    + intros ([|c a] & rest & j & -> & Hlen & Ha & Hk & ->); simplify_eq/=.
      apply Forall_cons in Ha as [Hc Ha]. apply Is_true_eq_true in Hc.
      rewrite Hc.
      assert (times (length a) p k (a ++ rest) = Some (length a + j)%nat)
        as ->; [|done].
      apply IH. by exists a, rest, j.
Qed.

(** The greedy star before a continuation that cannot start with a code unit
    of the class: it takes the whole run of the class. *)
Lemma star_Some p k s m :
  (∀ c s', p c = true -> k (c :: s') = None) ->
  star p k s = Some m
  <-> ∃ a rest j,
        s = a ++ rest ∧ Forall (fun c => p c) a
        ∧ k rest = Some j ∧ m = (length a + j)%nat.
Proof.
  intros Hk. revert m; induction s as [|c s IH]; intros m; simpl.
  - split.
    + intros H. exists [], [], m. by repeat split.
    + intros ([|] & rest & j & Heq & _ & Hj & ->); simplify_eq/=. done.
  - destruct (p c) eqn:Hc.
    + rewrite (Hk c s Hc).
      destruct (star p k s) as [n|] eqn:Hn.
      * split.
        -- intros [= <-].
           destruct (proj1 (IH n) eq_refl) as (a & rest & j & Hs & Ha & Hj & Hm).
           exists (c :: a), rest, j. rewrite Hs, Hm. repeat split; try done.
           constructor; [by rewrite Hc|done].
        -- intros ([|c' a] & rest & j & Heq & Ha & Hj & ->); simplify_eq/=.
           { by rewrite (Hk c _ Hc) in Hj. }
           apply Forall_cons in Ha as [_ Ha].
           assert (Some n = Some (length a + j)%nat) as [= ->]; [|done].
           apply IH. by exists a, rest, j.
      * split; [done|].
        intros ([|c' a] & rest & j & Heq & Ha & Hj & ->); simplify_eq/=.
        { by rewrite (Hk c _ Hc) in Hj. }
        apply Forall_cons in Ha as [_ Ha].
        assert (None = Some (length a + j)%nat); [|done].
        apply IH. by exists a, rest, j.
    + split.
      * intros H. exists [], (c :: s), m. by repeat split.
      * intros ([|c' a] & rest & j & Heq & Ha & Hj & ->); simplify_eq/=.
        { done. }
        apply Forall_cons in Ha as [Hc' _]. by rewrite Hc in Hc'.
Qed.

Lemma is_space_not_digit c : is_space c = true -> is_digit c = false.
Proof.
  unfold is_space, is_digit. intros H.
  destruct (N.leb_spec 48 c), (N.leb_spec c 57); try done.
  exfalso. revert H.
  repeat match goal with
         | |- context [(?a <=? ?b)%N] => destruct (N.leb_spec a b)
         | |- context [(?a =? ?b)%N] => destruct (N.eqb_spec a b)
         end; simpl; try done; lia.
Qed.

Lemma recordNumberRegEx_Some s n :
  recordNumberRegEx s = Some n
  <-> n = 8%nat ∧ (8 <= length s)%nat ∧ is_record_number (take 8 s).
Proof.
  unfold recordNumberRegEx. rewrite times_Some. split.
  - intros (a & rest & j & -> & Ha & Hr & Hj & ->).
    apply times_Some in Hj as (d & rest' & j' & -> & Hd & Hdig & Hj' & ->).
    unfold accept in Hj'. simplify_eq.
    destruct a as [|r [|]]; try done.
    apply Forall_cons in Hr as [Hr _]. apply Is_true_eq_true, N.eqb_eq in Hr.
    subst r. split; [done|]. rewrite !length_app. split; [simpl; lia|].
    exists d. split; [|done].
    change ([114%N] ++ d ++ rest') with ((114%N :: d) ++ rest').
    rewrite take_app_length'; [done|simpl; lia].
  - intros (-> & Hlen & d & Heq & Hd & Hdig).
    exists [114%N], (drop 1 s), 7%nat. repeat split.
    + rewrite <- (take_drop 8 s) at 1. rewrite Heq. simpl.
      f_equal. rewrite <- (take_drop 8 s) at 2. rewrite Heq. done.
    + by constructor.
    + apply times_Some. exists d, (drop 8 s), 0%nat. repeat split; try done.
      rewrite <- (take_drop 8 s) at 1. rewrite Heq. done.
Qed.

Lemma uosCodeRegEx_Some s n :
  uosCodeRegEx s = Some n
  <-> (n <= length s)%nat ∧ is_uos_code (take n s).
Proof.
  assert (∀ c s', is_space c = true ->
                  times 4 is_digit accept (c :: s') = None) as Hk.
  { intros c s' Hc. simpl. by rewrite (is_space_not_digit c Hc). }
  unfold uosCodeRegEx. rewrite times_Some. split.
  - intros (u & rest & j & -> & Hu & Hup & Hj & ->).
    apply (star_Some _ _ _ _ Hk) in Hj as (ws & rest' & j' & -> & Hws & Hj' & ->).
    apply times_Some in Hj' as (d & rest & j & -> & Hd & Hdig & Hj & ->).
    unfold accept in Hj. simplify_eq.
    rewrite !length_app. split; [lia|].
    exists u, ws, d. repeat split; try done.
    rewrite !app_assoc. rewrite take_app_length'; [done|].
    rewrite !length_app. lia.
  - intros (Hlen & u & ws & d & Heq & Hu & Hup & Hws & Hd & Hdig).
    assert (s = u ++ ws ++ d ++ drop n s) as Hs.
    { rewrite <- (take_drop n s) at 1. rewrite Heq.
      by rewrite <- !app_assoc. }
    assert (n = (4 + (length ws + (4 + 0)))%nat) as Hn.
    { rewrite <- (length_take_le s n Hlen), Heq, !length_app. lia. }
    exists u, (ws ++ d ++ drop n s), (length ws + (4 + 0))%nat.
    repeat split; try done.
    apply (star_Some _ _ _ _ Hk).
    exists ws, (d ++ drop n s), (4 + 0)%nat. repeat split; try done.
    apply times_Some. exists d, (drop n s), 0%nat. by repeat split.
Qed.

End Patterns.

(** ** The global scan *)

Section GlobalMatch.

Variable re : matcher.
Variable P : jsstring -> Prop.
Hypothesis re_sound :
  ∀ s n, re s = Some n -> (0 < n <= length s)%nat ∧ P (take n s).
Hypothesis re_complete : ∀ s, re s = None -> ∀ n, ¬ P (take n s).

Lemma exec_all_skip k s :
  (k <= length s)%nat -> exec_all re k s = exec_all re 0 (drop k s).
Proof.
  revert s; induction k as [|k IH]; intros s Hk.
  - by rewrite drop_0.
  - destruct s as [|c s]; simpl in *; [lia|].
    apply IH. lia.
Qed.

Lemma exec_all_match s n :
  re s = Some n -> exec_all re 0 s = take n s :: exec_all re 0 (drop n s).
Proof.
  intros Hn. destruct (re_sound s n Hn) as [[Hpos Hlen] _].
  destruct s as [|c s]; simpl in Hlen; [lia|].
  destruct n as [|n]; [lia|].
  cbn [exec_all]. rewrite Hn. cbn [pred drop].
  rewrite exec_all_skip; [done|lia].
Qed.

Lemma exec_all_pass c s :
  re (c :: s) = None -> exec_all re 0 (c :: s) = exec_all re 0 s.
Proof. intros Hn. cbn [exec_all]. by rewrite Hn. Qed.

Lemma exec_all_nil : exec_all re 0 [] = [].
Proof.
  cbn [exec_all]. destruct (re []) as [n|] eqn:Hn; [|done].
  destruct (re_sound [] n Hn) as [[? Hlen] _]. simpl in Hlen. lia.
Qed.

Lemma scan_pass c s ms :
  (∀ n, ¬ P (take n (c :: s))) -> scan P s ms -> scan P (c :: s) ms.
Proof.
  intros Hc Hs. inversion Hs as [s' Hnone|g m rest ms' Hm Hgap Hrest]; subst.
  - apply scan_none. intros [|i] n; [apply Hc|apply Hnone].
  - apply (scan_match P (c :: g) m rest ms'); [done| |done].
    intros [|i] n Hi; [apply Hc|]. apply Hgap. simpl in Hi. lia.
Qed.

(** The matches collected are those of the scan, in its order. *)
Lemma exec_all_scan s : scan P s (exec_all re 0 s).
Proof.
  remember (length s) as len eqn:Hlen. revert s Hlen.
  induction len as [len IH] using lt_wf_ind. intros s ->.
  destruct (re s) as [n|] eqn:Hn.
  - rewrite (exec_all_match s n Hn).
    destruct (re_sound s n Hn) as [[Hpos Hle] HP].
    rewrite <- (take_drop n s) at 1.
    apply (scan_match P [] (take n s) (drop n s)); [done|simpl; lia|].
    apply (IH (length (drop n s))); [|done].
    rewrite length_drop. lia.
  - destruct s as [|c s].
    + rewrite exec_all_nil. apply scan_none. intros i n.
      rewrite drop_nil. by apply re_complete.
    + rewrite (exec_all_pass c s Hn). apply scan_pass.
      * by apply re_complete.
      * apply (IH (length s)); [simpl; lia|done].
Qed.

(** The scan has one outcome, when at most one prefix of a text has the
    shape. *)
Hypothesis P_prefix :
  ∀ s n n', (n <= length s)%nat -> (n' <= length s)%nat ->
            P (take n s) -> P (take n' s) -> n = n'.

Lemma scan_unique s ms ms' : scan P s ms -> scan P s ms' -> ms = ms'.
Proof.
  intros H. revert ms'.
  induction H as [s Hnone|g m rest ms Hm Hgap Hrest IH]; intros ms' H'.
  - inversion H' as [|g' m' rest' ms'' Hm' Hgap' Hrest']; [done|]. subst.
    destruct (Hnone (length g') (length m')).
    rewrite drop_app_length. by rewrite take_app_length.
  - inversion H' as [s' Hnone' Heq|g' m' rest' ms'' Hm' Hgap' Hrest' Heq];
      subst.
    + destruct (Hnone' (length g) (length m)).
      rewrite drop_app_length. by rewrite take_app_length.
    + assert (length g = length g') as Hg.
      { destruct (Nat.lt_trichotomy (length g) (length g')) as [Hlt|[?|Hlt]];
          [|done|].
        - destruct (Hgap' (length g) (length m) Hlt).
          rewrite Heq, drop_app_length. by rewrite take_app_length.
        - destruct (Hgap (length g') (length m') Hlt).
          rewrite <- Heq, drop_app_length. by rewrite take_app_length. }
      apply app_inj_1 in Heq as [-> Heq]; [|done].
      assert (length m' = length m) as Hlen.
      { apply (P_prefix (m ++ rest)).
        - rewrite <- Heq, length_app. lia.
        - rewrite length_app. lia.
        - by rewrite <- Heq, take_app_length.
        - by rewrite take_app_length. }
      apply app_inj_1 in Heq as [-> ->]; [|done].
      f_equal. by apply IH.
Qed.

End GlobalMatch.

Lemma recordNumber_sound s n :
  recordNumberRegEx s = Some n ->
  (0 < n <= length s)%nat ∧ is_record_number (take n s).
Proof. intros (-> & Hlen & Hm)%recordNumberRegEx_Some. split; [lia|done]. Qed.

Lemma is_record_number_length m : is_record_number m -> length m = 8%nat.
Proof. intros (d & -> & Hd & _). simpl. lia. Qed.

Lemma recordNumber_complete s :
  recordNumberRegEx s = None -> ∀ n, ¬ is_record_number (take n s).
Proof.
  intros Hnone n Hm.
  pose proof (is_record_number_length _ Hm) as Hlen.
  rewrite length_take in Hlen.
  assert (recordNumberRegEx s = Some 8%nat) as Hsome; [|congruence].
  apply recordNumberRegEx_Some. split; [done|]. split; [lia|].
  replace (take 8 s) with (take n s); [done|].
  rewrite <- (take_ge (take n s) 8) by (rewrite length_take; lia).
  rewrite take_take. f_equal. lia.
Qed.

Lemma recordNumber_prefix s n n' :
  (n <= length s)%nat -> (n' <= length s)%nat ->
  is_record_number (take n s) -> is_record_number (take n' s) -> n = n'.
Proof.
  intros Hn Hn' H1%is_record_number_length H2%is_record_number_length.
  rewrite length_take in H1, H2. lia.
Qed.

Lemma is_uos_code_length m : is_uos_code m -> (8 <= length m)%nat.
Proof.
  intros (u & ws & d & -> & Hu & _ & _ & Hd & _). rewrite !length_app. lia.
Qed.

Lemma uosCode_sound s n :
  uosCodeRegEx s = Some n -> (0 < n <= length s)%nat ∧ is_uos_code (take n s).
Proof.
  intros [Hlen Hm]%uosCodeRegEx_Some. split; [|done].
  apply is_uos_code_length in Hm. rewrite length_take in Hm. lia.
Qed.

Lemma uosCode_complete s :
  uosCodeRegEx s = None -> ∀ n, ¬ is_uos_code (take n s).
Proof.
  intros Hnone n Hm.
  assert (uosCodeRegEx s = Some (n `min` length s)%nat) as Hsome;
    [|congruence].
  apply uosCodeRegEx_Some. split; [lia|].
  destruct (Nat.le_ge_cases n (length s)).
  - by rewrite Nat.min_l.
  - rewrite Nat.min_r by done. rewrite take_ge in Hm by done.
    by rewrite take_ge.
Qed.

Lemma uosCode_prefix s n n' :
  (n <= length s)%nat -> (n' <= length s)%nat ->
  is_uos_code (take n s) -> is_uos_code (take n' s) -> n = n'.
Proof.
  intros Hn Hn' H1 H2.
  assert (uosCodeRegEx s = Some n) as E1 by by apply uosCodeRegEx_Some.
  assert (uosCodeRegEx s = Some n') as E2 by by apply uosCodeRegEx_Some.
  congruence.
Qed.

Lemma String_match_None re s : String_match re s = None <-> exec_all re 0 s = [].
Proof. unfold String_match. by destruct (exec_all re 0 s). Qed.

Lemma String_match_Some re s ms :
  String_match re s = Some ms <-> exec_all re 0 s = ms ∧ ms ≠ [].
Proof.
  unfold String_match. destruct (exec_all re 0 s); split.
  - done.
  - by intros [<- ?].
  - by intros [= <-].
  - by intros [-> _].
Qed.

(** ** Loops over the row objects *)

(** One step of [<$>] and of the bind of [option], and nothing below it. *)
Ltac option_step :=
  cbn [fmap option_fmap option_map mbind option_bind mjoin option_join
       mret option_ret default from_option].

Lemma map_fmap {A B} (f : A -> B) (l : list A) : map f l = f <$> l.
Proof. done. Qed.

Lemma concat_mjoin {A} (ls : list (list A)) : concat ls = mjoin ls.
Proof. induction ls as [|l ls IH]; [done|]. simpl. by rewrite IH. Qed.

Section Rows.

Context {E : Type}.
Implicit Types (refs : list nat) (body : row -> error E + row).

Lemma forOf_inr refs body (f : row -> row) h :
  NoDup refs ->
  (∀ r x, r ∈ refs -> h !! r = Some x -> body x = inr (f x)) ->
  forOf refs body h
  = inr (imap (fun i x => if decide (i ∈ refs) then f x else x) h).
Proof.
  intros Hnd. revert h; induction Hnd as [|r rest Hr Hnd IH]; intros h Hbody.
  - cbn [forOf]. f_equal. apply list_eq. intros i. rewrite list_lookup_imap.
    destruct (h !! i); [|done]. option_step.
    by rewrite decide_False by apply not_elem_of_nil.
  - cbn [forOf]. destruct (h !! r) as [x|] eqn:Hx.
    + rewrite (Hbody r x) by (done || left). rewrite IH.
      * f_equal. apply list_eq. intros i. rewrite !list_lookup_imap.
        destruct (decide (i = r)) as [->|Hne].
        -- rewrite list_lookup_insert_eq by by eapply lookup_lt_Some.
           rewrite Hx. option_step. rewrite decide_False by done.
           by rewrite decide_True by left.
        -- rewrite list_lookup_insert_ne by done.
           destruct (h !! i); [|done]. option_step. f_equal.
           apply decide_ext. rewrite elem_of_cons.
           split; [by right|]. by intros [?|?].
      * intros r' x' Hr' Hx'.
        rewrite list_lookup_insert_ne in Hx' by (intros ->; done).
        apply (Hbody r'); [by right|done].
    + rewrite IH.
      * f_equal. apply list_eq. intros i. rewrite !list_lookup_imap.
        destruct (h !! i) eqn:Hi; [|done]. option_step. f_equal.
        apply decide_ext. rewrite elem_of_cons.
        split; [tauto|]. intros [->|?]; [congruence|done].
      * intros r' x' Hr' Hx'. apply (Hbody r'); [by right|done].
Qed.

Lemma forOf_inl_inv refs body h e :
  NoDup refs ->
  forOf refs body h = inl e ->
  ∃ r x, r ∈ refs ∧ h !! r = Some x ∧ body x = inl e.
Proof.
  intros Hnd. revert h; induction Hnd as [|r rest Hr Hnd IH]; intros h; simpl.
  { done. }
  destruct (h !! r) as [x|] eqn:Hx.
  - destruct (body x) as [e'|x'] eqn:Hb.
    + intros [= ->]. exists r, x. split; [left|done].
    + intros (r' & y & Hr' & Hy & Hby)%IH.
      rewrite list_lookup_insert_ne in Hy by (intros ->; done).
      exists r', y. split; [by right|done].
  - intros (r' & y & Hr' & Hy & Hby)%IH.
    exists r', y. split; [by right|done].
Qed.

Lemma forOf_inl refs body h r x e :
  NoDup refs ->
  r ∈ refs -> h !! r = Some x -> body x = inl e ->
  ∃ e', forOf refs body h = inl e'.
Proof.
  intros Hnd. revert h; induction Hnd as [|r0 rest Hr0 Hnd IH];
    intros h Hr Hx Hb; simpl.
  { by apply elem_of_nil in Hr. }
  destruct (h !! r0) as [x0|] eqn:Hx0.
  - destruct (body x0) as [e'|x'] eqn:Hb0; [by eexists|].
    apply elem_of_cons in Hr as [->|Hr]; [congruence|].
    apply IH; [done| |done].
    rewrite list_lookup_insert_ne by (intros ->; done). done.
  - apply elem_of_cons in Hr as [->|Hr]; [congruence|].
    by apply IH.
Qed.

End Rows.

(** ** The extraction and the assembly step, row by row *)

Section Steps.

Context {E : Type}.

Lemma elem_of_refs_of (h : list row) r : r ∈ refs_of h <-> is_Some (h !! r).
Proof.
  unfold refs_of. rewrite elem_of_seq, lookup_lt_is_Some. lia.
Qed.

Lemma rowsToProcess_NoDup o h : NoDup (rowsToProcess o h).
Proof.
  unfold rowsToProcess, Lodash.drop, refs_of.
  assert (NoDup (drop (Z.to_nat (skip o)) (seq 0 (length h)))) as Hnd.
  { eapply sublist_NoDup; [apply NoDup_seq|apply sublist_drop]. }
  destruct (negb (wantsPrependedResults o)); [|done].
  by apply NoDup_filter.
Qed.

Lemma elem_of_rowsToProcess o h r :
  r ∈ rowsToProcess o h <-> ∃ x, h !! r = Some x ∧ processed o r (cells x).
Proof.
  unfold rowsToProcess, Lodash.drop, refs_of, processed.
  assert (r ∈ drop (Z.to_nat (skip o)) (seq 0 (length h))
          <-> (Z.to_nat (skip o) <= r)%nat ∧ is_Some (h !! r)) as Hdrop.
  { rewrite drop_seq, elem_of_seq, lookup_lt_is_Some. lia. }
  destruct (wantsPrependedResults o); cbn [negb].
  - rewrite Hdrop. split.
    + intros [Hr [x Hx]]. exists x. auto.
    + intros (x & Hx & Hr & _). eauto.
  - rewrite list_elem_of_filter, Hdrop. split.
    + intros (Ht & Hr & [x Hx]). exists x. rewrite Hx in Ht.
      repeat split; try done. right. revert Ht. option_step.
      by destruct (truthy (index (cells x) (resultColumn o))).
    + intros (x & Hx & Hr & [?|Ht]); [done|].
      rewrite Hx. split; [|eauto]. option_step. rewrite Ht. by intros [].
Qed.

Lemma lookup_loadInputFile data i :
  loadInputFile data !! i
  = (fun d => {| cells := d; recordNumbers := None; results := None |})
      <$> data !! i.
Proof. unfold loadInputFile. apply list_lookup_fmap. Qed.

(** The extraction step throws exactly when a row to process has no cell in
    the record-number column. *)
Lemma augmentInputDataWithRecordNumbers_inl o data (e : error E) :
  augmentInputDataWithRecordNumbers o (loadInputFile data) = inl e
  <-> e = TypeError
      ∧ ∃ i d, data !! i = Some d ∧ processed o i d
               ∧ index d (recordNumberColumn o) = None.
Proof.
  unfold augmentInputDataWithRecordNumbers. split.
  - intros (r & x & Hr & Hx & Hb)%forOf_inl_inv; [|apply rowsToProcess_NoDup].
    apply elem_of_rowsToProcess in Hr as (x' & Hx' & Hp).
    rewrite Hx in Hx'. injection Hx' as <-.
    rewrite lookup_loadInputFile in Hx.
    destruct (data !! r) as [d|] eqn:Hd; [|done].
    injection Hx as <-. cbn [cells] in *.
    destruct (index d (recordNumberColumn o)) eqn:Hc; [done|].
    injection Hb as <-. split; [done|]. by exists r, d.
  - intros (-> & i & d & Hd & Hp & Hc).
    match goal with
    | |- forOf ?refs ?body ?h = _ =>
        destruct (forOf_inl refs body h i
                    {| cells := d; recordNumbers := None; results := None |}
                    TypeError) as [e' He']
    end; [apply rowsToProcess_NoDup| | | |].
    + apply elem_of_rowsToProcess. eexists.
      split; [by rewrite lookup_loadInputFile, Hd|exact Hp].
    + by rewrite lookup_loadInputFile, Hd.
    + cbn [cells]. rewrite Hc. done.
    + rewrite He'. f_equal.
      apply forOf_inl_inv in He' as (r & x & _ & _ & Hb);
        [|apply rowsToProcess_NoDup].
      by destruct (index (cells x) (recordNumberColumn o)); simplify_eq.
Qed.

(** Otherwise it leaves each row as [extracted] says. *)
Lemma augmentInputDataWithRecordNumbers_inr o data rows :
  augmentInputDataWithRecordNumbers (E:=E) o (loadInputFile data) = inr rows
  <-> rows = imap (extracted o) data
      ∧ ∀ i d, data !! i = Some d -> processed o i d ->
               is_Some (index d (recordNumberColumn o)).
Proof.
  assert ((∀ i d, data !! i = Some d -> processed o i d ->
                  is_Some (index d (recordNumberColumn o))) ->
          augmentInputDataWithRecordNumbers (E:=E) o (loadInputFile data)
          = inr (imap (extracted o) data)) as Hinr.
  { intros Hall. unfold augmentInputDataWithRecordNumbers.
    rewrite (forOf_inr _ _
               (fun x => set_recordNumbers
                           (cell ← index (cells x) (recordNumberColumn o);
                            String_match recordNumberRegEx cell) x));
      [|apply rowsToProcess_NoDup|].
    - f_equal. apply list_eq. intros i.
      rewrite !list_lookup_imap, lookup_loadInputFile.
      destruct (data !! i) as [d|] eqn:Hd; [|done]. option_step. f_equal.
      unfold extracted, set_recordNumbers.
      cbn [cells results recordNumbers].
      destruct (decide (processed o i d)) as [Hp|Hp].
      + rewrite decide_True; [done|].
        apply elem_of_rowsToProcess. eexists.
        split; [by rewrite lookup_loadInputFile, Hd|exact Hp].
      + rewrite decide_False; [done|].
        intros (x & Hx & Hp')%elem_of_rowsToProcess.
        rewrite lookup_loadInputFile, Hd in Hx. by injection Hx as <-.
    - intros r x (x' & Hx' & Hp)%elem_of_rowsToProcess Hx.
      rewrite Hx in Hx'. injection Hx' as <-.
      rewrite lookup_loadInputFile in Hx.
      destruct (data !! r) as [d|] eqn:Hd; [|done].
      injection Hx as <-. cbn [cells] in *.
      by destruct (Hall r d Hd Hp) as [cell ->]. }
  split.
  - intros Hrows.
    assert (∀ i d, data !! i = Some d -> processed o i d ->
                   is_Some (index d (recordNumberColumn o))) as Hall.
    { intros i d Hd Hp.
      destruct (index d (recordNumberColumn o)) eqn:Hc; [by eexists|].
      assert (augmentInputDataWithRecordNumbers (E:=E) o (loadInputFile data)
              = inl TypeError); [|congruence].
      apply augmentInputDataWithRecordNumbers_inl. split; [done|].
      by exists i, d. }
    split; [|done]. rewrite (Hinr Hall) in Hrows. by simplify_eq.
  - intros [-> Hall]. by apply Hinr.
Qed.

Lemma rowsWithRecordNumbers_NoDup h : NoDup (rowsWithRecordNumbers h).
Proof. apply NoDup_filter, NoDup_seq. Qed.

Lemma elem_of_rowsWithRecordNumbers h r :
  r ∈ rowsWithRecordNumbers h
  <-> ∃ x, h !! r = Some x ∧ is_Some (recordNumbers x).
Proof.
  unfold rowsWithRecordNumbers. rewrite list_elem_of_filter, elem_of_refs_of.
  split.
  - intros [Hrn [x Hx]]. exists x. by rewrite Hx in Hrn.
  - intros (x & Hx & Hrn). rewrite Hx. eauto.
Qed.

(** The assembly step never throws and leaves each row as [assembled]
    says. *)
Lemma augmentInputDataWithResults_inr st :
  augmentInputDataWithResults (E:=E) st
  = inr {| inputData := map (assembled (mapping st)) (inputData st);
           mapping := mapping st |}.
Proof.
  unfold augmentInputDataWithResults.
  rewrite (forOf_inr _ _
             (fun row =>
                set_results
                  (Lodash.uniq
                     (flatten_resolutions
                        (map (fun x => mapping st !! x)
                             (default [] (recordNumbers row))))) row));
    [|apply rowsWithRecordNumbers_NoDup|done].
  do 2 f_equal. apply list_eq. intros i.
  rewrite map_fmap, list_lookup_imap, list_lookup_fmap.
  destruct (inputData st !! i) as [x|] eqn:Hx; [|done]. option_step. f_equal.
  unfold assembled. destruct (recordNumbers x) as [rns|] eqn:Hrns.
  - rewrite decide_True.
    + by rewrite uniq_first_occurrences.
    + apply elem_of_rowsWithRecordNumbers. exists x. rewrite Hrns. eauto.
  - rewrite decide_False; [done|].
    intros (x' & Hx' & Hs)%elem_of_rowsWithRecordNumbers. simplify_eq.
    rewrite Hrns in Hs. by destruct Hs.
Qed.

End Steps.

(** ** The resolution pass *)

Lemma uniqSetOfRecordNumbers_NoDup rows : NoDup (uniqSetOfRecordNumbers rows).
Proof. apply sortedUniq_sortBy. Qed.

Lemma elem_of_uniqSetOfRecordNumbers rows rn :
  rn ∈ uniqSetOfRecordNumbers rows
  <-> ∃ x rns, x ∈ rows ∧ recordNumbers x = Some rns ∧ rn ∈ rns.
Proof.
  unfold uniqSetOfRecordNumbers.
  destruct (sortedUniq_sortBy
              (Lodash.flattenDeep
                 (Lodash.filter_identity (map recordNumbers rows))))
    as (_ & _ & ->).
  unfold Lodash.flattenDeep, Lodash.filter_identity.
  rewrite concat_mjoin, list_elem_of_join. setoid_rewrite list_elem_of_omap.
  rewrite map_fmap. setoid_rewrite list_elem_of_fmap. split.
  - intros (rns & Hrn & o' & (x & -> & Hx) & Ho). exists x, rns. eauto.
  - intros (x & rns & Hx & Hrns & Hrn). exists rns. split; [done|].
    exists (Some rns). split; [|done]. exists x. eauto.
Qed.

Section Resolver.

Context {DB E : Type}.
Variable t_any : DB -> jsstring -> DB * (E + list jsstring).
Variable connect : DB -> DB * option E.

(** The loop of the task, query by query: the queries sent are those of the
    record numbers, in turn, up to the first rejected one. *)
Lemma task_spec rns :
  NoDup rns ->
  ∀ m w w' res,
    task t_any rns m w = (w', res) ->
    ∃ tr,
      queries w' = queries w ++ tr
      ∧ match res with
        | inr m' =>
            Forall2 (fun rn qa =>
                       ∃ fs, qa = (substr1 rn, inr fs)
                             ∧ m' !! rn = Some (resolve rn fs)) rns tr
            ∧ ∀ k, k ∉ rns -> m' !! k = m !! k
        | inl e =>
            ∃ ok rn e0,
              e = StoreError e0
              ∧ tr = ok ++ [(substr1 rn, inl e0)]
              ∧ rns !! length ok = Some rn
              ∧ Forall2 (fun rn qa => ∃ fs, qa = (substr1 rn, inr fs))
                        (take (length ok) rns) ok
        end.
Proof.
  induction 1 as [|rn rest Hrn Hnd IH]; intros m w w' res; cbn [task].
  - unfold ret. intros [= <- <-]. exists []. rewrite app_nil_r.
    split; [done|]. split; [constructor|done].
  - unfold bind, query.
    destruct (t_any (db w) (substr1 rn)) as [db' [e0|fs]] eqn:Hq.
    + intros [= <- <-]. eexists. split; [done|].
      exists [], rn, e0. repeat split. constructor.
    + intros Ht. apply IH in Ht as (tr & Hw' & Hres). cbn [queries] in Hw'.
      exists ((substr1 rn, inr fs) :: tr).
      split; [by rewrite Hw', <- app_assoc|].
      destruct res as [e|m'].
      * destruct Hres as (ok & rn' & e1 & -> & -> & Hrn' & Hok).
        exists ((substr1 rn, inr fs) :: ok), rn', e1. repeat split; try done.
        cbn [length take]. constructor; [by eexists|done].
      * destruct Hres as [Hall Hother]. split.
        -- constructor; [|done]. exists fs. split; [done|].
           rewrite Hother by done. apply lookup_insert_eq.
        -- intros k Hk. apply not_elem_of_cons in Hk as [Hk1 Hk2].
           rewrite Hother by done. by apply lookup_insert_ne.
Qed.

(** The pass, step by step: the connection, then the loop. *)
Lemma findUosCode_eq rows w :
  findUosCode t_any connect rows w
  = match connect (db w) with
    | (db', Some e) =>
        ({| db := db'; queries := queries w |}, inl (StoreError e))
    | (db', None) =>
        match task t_any (uniqSetOfRecordNumbers rows) ∅
                   {| db := db'; queries := queries w |} with
        | (w', inl e) => (w', inl e)
        | (w', inr m) => (w', inr {| inputData := rows; mapping := m |})
        end
    end.
Proof.
  unfold findUosCode, sierraDb_task, bind, ret.
  destruct (connect (db w)) as [db' [e|]]; [done|].
  by destruct (task t_any (uniqSetOfRecordNumbers rows) ∅ _) as [w' [e|m]].
Qed.

Lemma findUosCode_inputData rows w w' st :
  findUosCode t_any connect rows w = (w', inr st) -> inputData st = rows.
Proof.
  rewrite findUosCode_eq.
  destruct (connect (db w)) as [db' [e|]]; [done|].
  destruct (task t_any (uniqSetOfRecordNumbers rows) ∅ _) as [w1 [e|m]];
    [done|].
  by intros [= _ <-].
Qed.

(** The run, step by step. *)
Lemma main_eq o data w :
  main t_any connect o data w
  = match augmentInputDataWithRecordNumbers o (loadInputFile data) with
    | inl e => (w, inl e)
    | inr rows =>
        match findUosCode t_any connect rows w with
        | (w', inl e) => (w', inl e)
        | (w', inr st) =>
            let st :=
              {| inputData := map (assembled (mapping st)) rows;
                 mapping := mapping st |} in
            (w', inr (if wantsPrependedResults o then outputInNewColumn o st
                      else outputInExistingColumn o st))
        end
    end.
Proof.
  unfold main, bind, lift, ret.
  destruct (augmentInputDataWithRecordNumbers o (loadInputFile data))
    as [e|rows]; [done|].
  destruct (findUosCode t_any connect rows w) as [w' [e|st]] eqn:Hf; [done|].
  rewrite augmentInputDataWithResults_inr.
  by rewrite (findUosCode_inputData _ _ _ _ Hf).
Qed.

End Resolver.

(** ** Facts the properties share *)

Lemma scan_Forall P s ms : scan P s ms -> Forall P ms.
Proof. induction 1; by constructor. Qed.

Lemma recordNumbers_scan cell ms :
  scan is_record_number cell ms <-> exec_all recordNumberRegEx 0 cell = ms.
Proof.
  pose proof (exec_all_scan recordNumberRegEx is_record_number
                recordNumber_sound recordNumber_complete cell) as Hscan.
  split; [|by intros <-].
  intros Hms. symmetry.
  by apply (scan_unique is_record_number recordNumber_prefix cell).
Qed.

Lemma uosCodes_scan field ms :
  scan is_uos_code field ms <-> exec_all uosCodeRegEx 0 field = ms.
Proof.
  pose proof (exec_all_scan uosCodeRegEx is_uos_code
                uosCode_sound uosCode_complete field) as Hscan.
  split; [|by intros <-].
  intros Hms. symmetry.
  by apply (scan_unique is_uos_code uosCode_prefix field).
Qed.

Lemma substr1_record_number_inj a b :
  is_record_number a -> is_record_number b -> substr1 a = substr1 b -> a = b.
Proof.
  intros (d & -> & _) (d' & -> & _). unfold substr1. cbn [drop].
  rewrite !drop_0. by intros ->.
Qed.

(** The record numbers of an extracted row have the shape of the pattern. *)
Lemma extracted_record_numbers o i d rns :
  recordNumbers (extracted o i d) = Some rns -> Forall is_record_number rns.
Proof.
  unfold extracted. cbn [recordNumbers].
  destruct (decide (processed o i d)); [|done].
  destruct (index d (recordNumberColumn o)) as [cell|]; [|done].
  option_step. intros [<- _]%String_match_Some.
  by apply (scan_Forall _ cell), recordNumbers_scan.
Qed.

Lemma uniqSetOfRecordNumbers_extracted o data :
  Forall is_record_number (uniqSetOfRecordNumbers (imap (extracted o) data)).
Proof.
  apply Forall_forall. intros rn.
  intros (x & rns & Hx & Hrns & Hrn)%elem_of_uniqSetOfRecordNumbers.
  apply elem_of_lookup_imap in Hx as (i & d & -> & Hd).
  apply extracted_record_numbers in Hrns.
  rewrite Forall_forall in Hrns. by apply Hrns.
Qed.

Lemma NoDup_substr1 rns :
  NoDup rns -> Forall is_record_number rns -> NoDup (substr1 <$> rns).
Proof.
  intros Hnd Hall. apply NoDup_fmap_2_strong; [|done].
  rewrite Forall_forall in Hall.
  intros a b Ha Hb. apply substr1_record_number_inj; by apply Hall.
Qed.

(** A key that occurs in a list without repeated keys occurs once. *)
Lemma NoDup_fst_once {A B} `{EqDecision A} (l : list (A * B)) k v :
  NoDup l.*1 -> (k, v) ∈ l -> length (filter (fun qa => qa.1 = k) l) = 1%nat.
Proof.
  induction l as [|[k' v'] l IH]; intros Hnd Hin.
  { by apply elem_of_nil in Hin. }
  rewrite fmap_cons in Hnd. apply NoDup_cons in Hnd as [Hk' Hnd].
  cbn [fst] in Hk'.
  apply elem_of_cons in Hin as [[= <- <-]|Hin].
  - rewrite filter_cons_True by done. cbn [length]. f_equal.
    destruct (filter (fun qa => qa.1 = k) l) as [|[k1 v1] l'] eqn:Hf; [done|].
    assert ((k1, v1) ∈ filter (fun qa : A * B => qa.1 = k) l) as Hin
      by (rewrite Hf; left).
    apply list_elem_of_filter in Hin as [Hk1 Hin]. cbn [fst] in Hk1. subst k1.
    destruct Hk'. apply list_elem_of_fmap. by exists (k, v1).
  - rewrite filter_cons_False; [by apply IH|].
    cbn [fst]. intros ->. apply Hk'. apply list_elem_of_fmap. by exists (k, v).
Qed.

Lemma lookup_take_drop_map {A B} (f g : A -> B) k (l : list A) i :
  (map f (take k l) ++ map g (drop k l)) !! i
  = (if decide (i < k)%nat then f else g) <$> l !! i.
Proof.
  rewrite !map_fmap. destruct (decide (i < k)%nat) as [Hi|Hi].
  - destruct (decide (i < length l)%nat) as [Hl|Hl].
    + rewrite lookup_app_l by (rewrite length_fmap, length_take; lia).
      by rewrite list_lookup_fmap, lookup_take_lt.
    + rewrite (lookup_ge_None_2 l i) by lia.
      apply lookup_ge_None_2.
      rewrite length_app, !length_fmap, length_take, length_drop. lia.
  - destruct (decide (k <= length l)%nat) as [Hl|Hl].
    + rewrite lookup_app_r by (rewrite length_fmap, length_take; lia).
      rewrite length_fmap, length_take_le by done.
      rewrite list_lookup_fmap, lookup_drop. do 2 f_equal. lia.
    + rewrite (lookup_ge_None_2 l i) by lia.
      apply lookup_ge_None_2.
      rewrite length_app, !length_fmap, length_take, length_drop. lia.
Qed.

(** ** The program on small inputs *)

Example extract_record_numbers :
  String_match recordNumberRegEx (lit "'r1006349'; R1006370 r10063701,r100")
  = Some [lit "r1006349"; lit "r1006370"].
Proof. reflexivity. Qed.

Example extract_nothing :
  String_match recordNumberRegEx (lit "R1006349 r100634 1006349") = None.
Proof. reflexivity. Qed.

Example codes_of_fields :
  uosCodes [lit "MATH 1001 and MATH1001"; lit "phys1001, COMP2017"]
  = [lit "COMP2017"; lit "MATH1001"].
Proof. vm_compute. reflexivity. Qed.

Example scenario_run :
  main scenario_store example_connect example_options
       [[lit "number"; lit "note"]; [lit "r1006349 r1006370"; lit "x"]] start
  = ({| db := tt;
        queries := [(lit "1006349", inr [lit "ABCD 1234"; lit "ABCD1234"]);
                    (lit "1006370", inr [])] |},
     inr [ [Some (lit "number"); Some (lit "note")];
           [Some (lit "ABCD1234, r1006370");
            Some (lit "r1006349 r1006370"); Some (lit "x")] ]).
Proof. vm_compute. reflexivity. Qed.

(** ** The record-number extractor *)

(** C4. For every text of the designated cell of a processed row, the
    extractor finds exactly the non-overlapping substrings of the shape [r]
    and seven digits, from left to right, a repeated number as often as it
    occurs: the scan of the cell for that shape has one outcome [ms], and
    the row's [recordNumbers] are [ms].  When there is no match the row has
    no [recordNumbers], and the assembly step leaves it as it is, without
    [results], whatever the mapping. *)
Theorem record_numbers_extracted (E : Type) (o : options)
    (data : list (list jsstring)) (rows : list row) (i : nat)
    (d : list jsstring) (cell : jsstring) :
  augmentInputDataWithRecordNumbers (E:=E) o (loadInputFile data) = inr rows ->
  data !! i = Some d ->
  processed o i d ->
  index d (recordNumberColumn o) = Some cell ->
  ∃ ms,
    scan is_record_number cell ms
    ∧ (∀ ms', scan is_record_number cell ms' -> ms' = ms)
    ∧ ∃ x,
        rows !! i = Some x
        ∧ cells x = d
        ∧ results x = None
        ∧ recordNumbers x = (if decide (ms = []) then None else Some ms)
        ∧ (ms = [] -> ∀ m, assembled m x = x).
Proof.
  intros [-> _]%augmentInputDataWithRecordNumbers_inr Hd Hp Hcell.
  exists (exec_all recordNumberRegEx 0 cell).
  split; [by apply recordNumbers_scan|].
  split; [intros ms' Hms'; symmetry; by apply recordNumbers_scan|].
  exists (extracted o i d).
  assert (recordNumbers (extracted o i d)
          = if decide (exec_all recordNumberRegEx 0 cell = []) then None
            else Some (exec_all recordNumberRegEx 0 cell)) as Hrns.
  { unfold extracted. cbn [recordNumbers].
    rewrite decide_True by done. rewrite Hcell. option_step.
    unfold String_match.
    by destruct (exec_all recordNumberRegEx 0 cell). }
  repeat split; try done.
  - rewrite list_lookup_imap, Hd. done.
  - intros Hnone m. unfold assembled. rewrite Hrns.
    by rewrite decide_True.
Qed.

Lemma record_numbers_extracted_witness :
  ∃ ms,
    scan is_record_number (lit "'r1006349'; r1006349 r100637") ms
    ∧ (∀ ms', scan is_record_number (lit "'r1006349'; r1006349 r100637") ms'
              -> ms' = ms)
    ∧ ∃ x,
        [ {| cells := [lit "id"]; recordNumbers := None; results := None |};
          {| cells := [lit "'r1006349'; r1006349 r100637"];
             recordNumbers := Some [lit "r1006349"; lit "r1006349"];
             results := None |} ] !! 1%nat = Some x
        ∧ cells x = [lit "'r1006349'; r1006349 r100637"]
        ∧ results x = None
        ∧ recordNumbers x = (if decide (ms = []) then None else Some ms)
        ∧ (ms = [] -> ∀ m, assembled m x = x).
Proof.
  apply (record_numbers_extracted nat
           {| skip := 1; column := 1; result_column := 0 |}
           [[lit "id"]; [lit "'r1006349'; r1006349 r100637"]]).
  - vm_compute. reflexivity.
  - reflexivity.
  - split; [vm_compute; lia|left; reflexivity].
  - reflexivity.
Defined.

(** C10. The extraction step reads the record-number cell of each row it
    processes without a bounds check: it throws a [TypeError] exactly when
    some processed row has no cell at [recordNumberColumn], and it succeeds
    exactly when every processed row has one; a missing cell is not read as
    the empty text.  One row with one cell and [--column 2] makes it
    throw. *)
Theorem extraction_reads_cell_unchecked (E : Type) (o : options)
    (data : list (list jsstring)) :
  (augmentInputDataWithRecordNumbers (E:=E) o (loadInputFile data)
   = inl TypeError
   <-> ∃ i d, data !! i = Some d ∧ processed o i d
              ∧ index d (recordNumberColumn o) = None)
  ∧ ((∃ rows, augmentInputDataWithRecordNumbers (E:=E) o (loadInputFile data)
              = inr rows)
     <-> ∀ i d, data !! i = Some d -> processed o i d ->
                is_Some (index d (recordNumberColumn o)))
  ∧ augmentInputDataWithRecordNumbers (E:=E)
      {| skip := 0; column := 2; result_column := 0 |}
      (loadInputFile [[lit "r1006349"]])
    = inl TypeError.
Proof.
  split; [|split].
  - rewrite augmentInputDataWithRecordNumbers_inl.
    split; [by intros [_ ?]|by intros ?].
  - split.
    + by intros [rows [_ Hall]%augmentInputDataWithRecordNumbers_inr].
    + intros Hall. eexists. by apply augmentInputDataWithRecordNumbers_inr.
  - reflexivity.
Qed.

Lemma extraction_reads_cell_unchecked_witness :
  augmentInputDataWithRecordNumbers (E:=nat)
    {| skip := 1; column := 3; result_column := 0 |}
    (loadInputFile [[lit "id"; lit "name"]; [lit "r1006349"; lit "x"]])
  = inl TypeError.
Proof.
  apply (proj1 (extraction_reads_cell_unchecked nat
                  {| skip := 1; column := 3; result_column := 0 |}
                  [[lit "id"; lit "name"]; [lit "r1006349"; lit "x"]])).
  exists 1%nat, [lit "r1006349"; lit "x"].
  split; [reflexivity|]. split; [|reflexivity].
  split; [vm_compute; lia|left; reflexivity].
Defined.

(** ** The lookup resolver *)

Lemma elem_of_uosCodes courseFields c :
  c ∈ uosCodes courseFields
  <-> ∃ f m, f ∈ courseFields ∧ m ∈ exec_all uosCodeRegEx 0 f
             ∧ c = replace_first 32 m.
Proof.
  unfold uosCodes.
  match goal with
  | |- _ ∈ Lodash.sortedUniq (Lodash.sortBy_identity ?l) <-> _ =>
      destruct (sortedUniq_sortBy l) as (_ & _ & ->)
  end.
  unfold Lodash.flattenDeep, Lodash.filter_identity.
  rewrite !map_fmap, concat_mjoin, list_elem_of_fmap.
  setoid_rewrite list_elem_of_join. setoid_rewrite list_elem_of_omap.
  setoid_rewrite list_elem_of_fmap. split.
  - intros (m & -> & ms & Hm & o' & (f & -> & Hf) & Ho).
    cbn [id] in Ho. apply String_match_Some in Ho as [<- _]. eauto.
  - intros (f & m & Hf & Hm & ->). exists m. split; [done|].
    exists (exec_all uosCodeRegEx 0 f). split; [done|].
    exists (String_match uosCodeRegEx f). split; [eauto|].
    apply String_match_Some. split; [done|]. intros Hnil.
    rewrite Hnil in Hm. by apply elem_of_nil in Hm.
Qed.

Lemma uosCodes_sorted courseFields :
  StronglySorted str_lt (uosCodes courseFields).
Proof. apply sortedUniq_sortBy. Qed.

Lemma uosCodes_nil courseFields :
  uosCodes courseFields = []
  <-> ∀ f, f ∈ courseFields -> exec_all uosCodeRegEx 0 f = [].
Proof.
  split.
  - intros Hnil f Hf.
    destruct (exec_all uosCodeRegEx 0 f) as [|m ms] eqn:Hm; [done|].
    assert (replace_first 32 m ∈ uosCodes courseFields) as Hin.
    { apply elem_of_uosCodes. exists f, m. rewrite Hm.
      split; [done|]. split; [left|done]. }
    rewrite Hnil in Hin. by apply elem_of_nil in Hin.
  - intros Hall. apply elem_of_nil_inv. intros c.
    intros (f & m & Hf & Hm & _)%elem_of_uosCodes.
    rewrite (Hall f Hf) in Hm. by apply elem_of_nil in Hm.
Qed.

(** The three tiers of [resolve]. *)
Lemma resolve_tiers recordNumber courseFields :
  (courseFields = [] -> resolve recordNumber courseFields = Text recordNumber)
  ∧ (∀ first rest,
       courseFields = first :: rest ->
       (∀ f ms, f ∈ courseFields -> scan is_uos_code f ms -> ms = []) ->
       resolve recordNumber courseFields = Text first)
  ∧ (∀ f ms m,
       f ∈ courseFields -> scan is_uos_code f ms -> m ∈ ms ->
       ∃ codes,
         resolve recordNumber courseFields = Codes codes
         ∧ StronglySorted str_lt codes
         ∧ ∀ c, c ∈ codes
                <-> ∃ f ms m, f ∈ courseFields ∧ scan is_uos_code f ms
                              ∧ m ∈ ms ∧ c = replace_first 32 m).
Proof.
  split; [|split].
  - by intros ->.
  - intros first rest -> Hnone. unfold resolve.
    assert (uosCodes (first :: rest) = []) as ->; [|done].
    apply uosCodes_nil. intros f Hf.
    apply (Hnone f); [done|]. by apply uosCodes_scan.
  - intros f ms m Hf Hms%uosCodes_scan Hm. subst ms.
    exists (uosCodes courseFields). split; [|split].
    + unfold resolve.
      destruct (uosCodes courseFields) as [|c cs] eqn:Hcs; [|done].
      rewrite (proj1 (uosCodes_nil courseFields) Hcs f Hf) in Hm.
      by apply elem_of_nil in Hm.
    + apply uosCodes_sorted.
    + intros c. rewrite elem_of_uosCodes. split.
      * intros (f' & m' & Hf' & Hm' & ->).
        exists f', (exec_all uosCodeRegEx 0 f'), m'.
        repeat split; try done. by apply uosCodes_scan.
      * intros (f' & ms' & m' & Hf' & Hms'%uosCodes_scan & Hm' & ->).
        subst ms'. by exists f', m'.
Qed.

Section ResolverProperties.

Context {DB E : Type}.
Variable t_any : DB -> jsstring -> DB * (E + list jsstring).
Variable connect : DB -> DB * option E.

Lemma sent_app (w w' : world DB E) tr :
  queries w' = queries w ++ tr -> sent w w' = tr.
Proof. unfold sent. intros ->. apply drop_app_length. Qed.

(** A pass that ends well has sent one query for each distinct record
    number, in turn, and maps each to the resolution of its answer. *)
Lemma findUosCode_inr rows w w' st :
  findUosCode t_any connect rows w = (w', inr st) ->
  inputData st = rows
  ∧ Forall2 (fun rn qa =>
               ∃ fs, qa = (substr1 rn, inr fs)
                     ∧ mapping st !! rn = Some (resolve rn fs))
            (uniqSetOfRecordNumbers rows) (sent w w').
Proof.
  rewrite findUosCode_eq.
  destruct (connect (db w)) as [db' [e|]]; [done|].
  destruct (task t_any (uniqSetOfRecordNumbers rows) ∅ _)
    as [w1 [e|m]] eqn:Ht; [done|].
  intros [= <- <-].
  apply task_spec in Ht as (tr & Hq & Hall & _);
    [|apply uniqSetOfRecordNumbers_NoDup].
  by rewrite (sent_app w _ _ Hq).
Qed.

(** A pass that is rejected was either refused its connection, and has
    sent no query, or has sent the queries of some of the record numbers,
    each answered, and then the one that was rejected. *)
Lemma findUosCode_inl rows w w' err :
  findUosCode t_any connect rows w = (w', inl err) ->
  (∃ e, err = StoreError e ∧ (connect (db w)).2 = Some e ∧ sent w w' = [])
  ∨ (connect (db w)).2 = None
    ∧ ∃ ok rn e,
        err = StoreError e
        ∧ sent w w' = ok ++ [(substr1 rn, inl e)]
        ∧ uniqSetOfRecordNumbers rows !! length ok = Some rn
        ∧ Forall2 (fun rn qa => ∃ fs, qa = (substr1 rn, inr fs))
                  (take (length ok) (uniqSetOfRecordNumbers rows)) ok.
Proof.
  rewrite findUosCode_eq.
  destruct (connect (db w)) as [db' [e|]].
  { intros [= <- <-]. left. exists e. repeat split.
    apply sent_app. by rewrite app_nil_r. }
  destruct (task t_any (uniqSetOfRecordNumbers rows) ∅ _)
    as [w1 [e|m]] eqn:Ht; [|done].
  intros [= <- <-]. right. split; [done|].
  apply task_spec in Ht as (tr & Hq & ok & rn & e0 & -> & -> & Hrn & Hok);
    [|apply uniqSetOfRecordNumbers_NoDup].
  exists ok, rn, e0. by rewrite (sent_app w _ _ Hq).
Qed.

(** A pass that ends well had its connection. *)
Lemma findUosCode_connected rows w w' st :
  findUosCode t_any connect rows w = (w', inr st) -> (connect (db w)).2 = None.
Proof.
  rewrite findUosCode_eq. by destruct (connect (db w)) as [db' [e|]].
Qed.

(** In a pass that ends well every record number of a row has its query
    among those sent, and the mapping holds the resolution of the answer. *)
Lemma findUosCode_entry rows w w' st x rns rn :
  findUosCode t_any connect rows w = (w', inr st) ->
  x ∈ rows -> recordNumbers x = Some rns -> rn ∈ rns ->
  ∃ fs, (substr1 rn, inr fs) ∈ sent w w'
        ∧ mapping st !! rn = Some (resolve rn fs).
Proof.
  intros [_ Hall]%findUosCode_inr Hx Hrns Hrn.
  assert (rn ∈ uniqSetOfRecordNumbers rows) as [k Hk]%list_elem_of_lookup.
  { apply elem_of_uniqSetOfRecordNumbers. by exists x, rns. }
  destruct (Forall2_lookup_l _ _ _ _ _ Hall Hk) as (qa & Hqa & fs & -> & Hm).
  exists fs. split; [|done]. by apply list_elem_of_lookup; exists k.
Qed.

(** Either way, the arguments of the queries sent are those of the first
    record numbers, in turn. *)
Lemma findUosCode_args rows w w' res :
  findUosCode t_any connect rows w = (w', res) ->
  ∃ k, (sent w w').*1 = substr1 <$> take k (uniqSetOfRecordNumbers rows).
Proof.
  destruct res as [err|st].
  - intros [(e & _ & _ & ->)|(_ & ok & rn & e & _ & -> & Hrn & Hok)]
      %findUosCode_inl.
    { by exists 0%nat. }
    exists (S (length ok)). rewrite (take_S_r _ _ _ Hrn), !fmap_app.
    f_equal. clear Hrn.
    induction Hok as [|? ? ? ? (fs & ->) _ IH]; [done|].
    rewrite !fmap_cons. by rewrite IH.
  - intros [_ Hall]%findUosCode_inr.
    exists (length (uniqSetOfRecordNumbers rows)). rewrite take_ge by done.
    induction Hall as [|? ? ? ? (fs & -> & _) _ IH]; [done|].
    rewrite !fmap_cons. by rewrite IH.
Qed.

End ResolverProperties.

(** C5. The resolution pass queries the store at most once for a record
    number: no two queries of a pass have the same argument, and every
    query is for a record number of some row.  In a pass that ends well
    every record number of a row, however many rows name it, has its query,
    exactly one; the mapping holds one resolution for the number, that of
    the answer to this query, and the assembly step builds the [results] of
    every row from this one mapping, so that rows that name the same record
    number get the same value for it. *)
Theorem one_query_per_record_number {DB E : Type}
    (t_any : DB -> jsstring -> DB * (E + list jsstring))
    (connect : DB -> DB * option E)
    (o : options) (data : list (list jsstring))
    (rows : list row) (w w' : world DB E) (res : error E + state) :
  augmentInputDataWithRecordNumbers (E:=E) o (loadInputFile data) = inr rows ->
  findUosCode t_any connect rows w = (w', res) ->
  NoDup (sent w w').*1
  ∧ (∀ qa,
       qa ∈ sent w w' ->
       ∃ x rns rn,
         x ∈ rows ∧ recordNumbers x = Some rns ∧ rn ∈ rns
         ∧ qa.1 = substr1 rn)
  ∧ ∀ st,
      res = inr st ->
      (∀ x rns rn,
         x ∈ rows -> recordNumbers x = Some rns -> rn ∈ rns ->
         ∃ fs,
           (substr1 rn, inr fs) ∈ sent w w'
           ∧ length (filter (fun qa => qa.1 = substr1 rn) (sent w w')) = 1%nat
           ∧ mapping st !! rn = Some (resolve rn fs))
      ∧ ∃ st',
          augmentInputDataWithResults (E:=E) st = inr st'
          ∧ mapping st' = mapping st
          ∧ ∀ i x rns,
              rows !! i = Some x -> recordNumbers x = Some rns ->
              ∃ x',
                inputData st' !! i = Some x'
                ∧ results x'
                  = Some (first_occurrences
                            (flatten_resolutions
                               (map (fun rn => mapping st !! rn) rns))).
Proof.
  intros [-> _]%augmentInputDataWithRecordNumbers_inr Hf.
  destruct (findUosCode_args _ _ _ _ _ _ Hf) as [k Hargs].
  assert (NoDup (sent w w').*1) as Hnd.
  { rewrite Hargs, fmap_take.
    eapply sublist_NoDup; [|apply sublist_take].
    apply NoDup_substr1.
    - apply uniqSetOfRecordNumbers_NoDup.
    - apply uniqSetOfRecordNumbers_extracted. }
  split; [done|]. split.
  - intros qa Hqa.
    assert (qa.1 ∈ (sent w w').*1) as Hin by by apply list_elem_of_fmap_2.
    rewrite Hargs in Hin.
    apply list_elem_of_fmap in Hin as (rn & Hqa1 & Hrn).
    apply (subseteq_take k), elem_of_uniqSetOfRecordNumbers in Hrn
      as (x & rns & Hx & Hrns & Hrn).
    by exists x, rns, rn.
  - intros st ->. apply findUosCode_inr in Hf as [Hrows Hall]. split.
    + intros x rns rn Hx Hrns Hrn.
      assert (rn ∈ uniqSetOfRecordNumbers (imap (extracted o) data)) as Hin.
      { apply elem_of_uniqSetOfRecordNumbers. eauto. }
      apply list_elem_of_lookup in Hin as [i Hi].
      destruct (Forall2_lookup_l _ _ _ _ _ Hall Hi)
        as (qa & Hqa & fs & -> & Hm).
      exists fs. apply list_elem_of_lookup_2 in Hqa.
      split; [done|]. split; [|done].
      by apply (NoDup_fst_once _ _ (inr fs)).
    + eexists. split; [apply augmentInputDataWithResults_inr|].
      split; [done|]. cbn [inputData]. rewrite Hrows.
      intros i x rns Hx Hrns. exists (assembled (mapping st) x). split.
      * by rewrite map_fmap, list_lookup_fmap, Hx.
      * unfold assembled. by rewrite Hrns.
Qed.

Lemma one_query_per_record_number_witness :
  ∃ w' st,
    findUosCode example_store example_connect example_rows start = (w', inr st)
    ∧ NoDup (sent start w').*1
    ∧ length (filter (fun qa => qa.1 = lit "1006349") (sent start w')) = 1%nat.
Proof.
  destruct (findUosCode example_store example_connect example_rows start)
    as [w' [e|st]] eqn:H.
  { exfalso. vm_compute in H. discriminate H. }
  exists w', st. split; [reflexivity|].
  destruct (one_query_per_record_number example_store example_connect
              example_options example_data example_rows start w' (inr st))
    as (Hnd & _ & Hst).
  - vm_compute. reflexivity.
  - exact H.
  - split; [exact Hnd|].
    destruct (Hst st eq_refl) as [Hone _].
    destruct (Hone {| cells := [lit "r1006349 r1006370"; lit "x"];
                      recordNumbers := Some [lit "r1006349"; lit "r1006370"];
                      results := None |}
                   [lit "r1006349"; lit "r1006370"] (lit "r1006349"))
      as (fs & _ & Hlen & _).
    + apply list_elem_of_In. vm_compute. right. left. reflexivity.
    + reflexivity.
    + left.
    + exact Hlen.
Defined.

(** C9. When a query of the resolution pass is rejected, the pass ends
    there: it gives no mapping but the error of that query, as the store
    gave it, the run gives this same error and no row is written; the
    rejected query is the last one sent, every query before it was
    answered, and its argument was not sent before, so nothing is sent
    again. *)
Theorem store_failure_aborts {DB E : Type}
    (t_any : DB -> jsstring -> DB * (E + list jsstring))
    (connect : DB -> DB * option E)
    (o : options) (data : list (list jsstring)) (rows : list row)
    (w : world DB E) (q : jsstring) (e : E) :
  augmentInputDataWithRecordNumbers (E:=E) o (loadInputFile data) = inr rows ->
  (q, inl e) ∈ sent w (findUosCode t_any connect rows w).1 ->
  (findUosCode t_any connect rows w).2 = inl (StoreError e)
  ∧ main t_any connect o data w
    = ((findUosCode t_any connect rows w).1, inl (StoreError e))
  ∧ ∃ ok,
      sent w (findUosCode t_any connect rows w).1 = ok ++ [(q, inl e)]
      ∧ Forall (fun qa => ∃ fs, qa.2 = inr fs) ok
      ∧ q ∉ ok.*1.
Proof.
  intros Haug Hq.
  assert (main t_any connect o data w
          = match findUosCode t_any connect rows w with
            | (w', inl err) => (w', inl err)
            | (w', inr st) =>
                (w', inr (let st := {| inputData := map (assembled (mapping st)) rows;
                                       mapping := mapping st |} in
                          if wantsPrependedResults o
                          then outputInNewColumn o st
                          else outputInExistingColumn o st))
            end) as Hmain.
  { by rewrite main_eq, Haug. }
  rewrite Hmain. clear Hmain.
  apply augmentInputDataWithRecordNumbers_inr in Haug as [-> _].
  destruct (findUosCode t_any connect (imap (extracted o) data) w)
    as [w' [err|st]] eqn:Hf; cbn [fst snd] in *.
  - apply findUosCode_inl in Hf
      as [(e0 & _ & _ & Hsent)|(_ & ok & rn & e0 & -> & Hsent & Hrn & Hok)].
    { rewrite Hsent in Hq. by apply elem_of_nil in Hq. }
    rewrite Hsent in Hq |- *.
    assert (Forall (fun qa : jsstring * (E + list jsstring) =>
                      ∃ fs, qa.2 = inr fs) ok) as Hans.
    { clear -Hok. induction Hok as [|? ? ? ? (fs & ->) _ IH]; constructor;
        [by exists fs|done]. }
    assert ((q, inl e) = (substr1 rn, @inl E (list jsstring) e0))
      as [= -> ->].
    { apply elem_of_app in Hq as [Hq|Hq].
      - rewrite Forall_forall in Hans. by destruct (Hans _ Hq).
      - by apply list_elem_of_singleton in Hq. }
    split; [done|]. split; [done|]. exists ok. split; [done|]. split; [done|].
    assert (ok.*1 = substr1 <$> take (length ok)
                      (uniqSetOfRecordNumbers (imap (extracted o) data)))
      as ->.
    { clear -Hok. induction Hok as [|? ? ? ? (fs & ->) _ IH]; [done|].
      rewrite !fmap_cons. by rewrite IH. }
    pose proof (NoDup_substr1 _
                  (uniqSetOfRecordNumbers_NoDup (imap (extracted o) data))
                  (uniqSetOfRecordNumbers_extracted o data)) as Hnd.
    rewrite <- (take_drop_middle _ _ _ Hrn) in Hnd at 1.
    rewrite fmap_app, fmap_cons in Hnd.
    apply NoDup_app in Hnd as (_ & Hnot & _).
    intros Hin. apply (Hnot _ Hin). left.
  - exfalso. apply findUosCode_inr in Hf as [_ Hall].
    apply list_elem_of_lookup in Hq as [i Hi].
    by destruct (Forall2_lookup_r _ _ _ _ _ Hall Hi) as (rn & _ & fs & ? & _).
Qed.

Lemma store_failure_aborts_witness :
  main example_store example_connect example_options rejected_data start
  = ((findUosCode example_store example_connect rejected_rows start).1,
     inl (StoreError 500%nat))
  ∧ sent start (findUosCode example_store example_connect rejected_rows start).1
    = [(lit "1006349",
        inr [lit "Unit ABCD 1234 readings"; lit "ABCD1234; AAAA0000"]);
       (lit "1234567", inl 500%nat)].
Proof.
  destruct (store_failure_aborts example_store example_connect
              example_options
      rejected_data
              rejected_rows start (lit "1234567") 500%nat)
    as (_ & Hmain & _).
  - vm_compute. reflexivity.
  - apply list_elem_of_In. vm_compute. right. left. reflexivity.
  - split; [exact Hmain|]. vm_compute. reflexivity.
Defined.

(** ** Normalization of the codes *)

Lemma replace_first_notin x s : x ∉ s -> replace_first x s = s.
Proof.
  induction s as [|c s IH]; [done|]. intros [Hc Hs]%not_elem_of_cons.
  cbn [replace_first]. destruct (N.eqb_spec c x); [done|]. by rewrite IH.
Qed.

Lemma replace_first_app_notin x s k :
  x ∉ s -> replace_first x (s ++ k) = s ++ replace_first x k.
Proof.
  induction s as [|c s IH]; [done|]. intros [Hc Hs]%not_elem_of_cons.
  cbn [app replace_first]. destruct (N.eqb_spec c x); [done|]. by rewrite IH.
Qed.

Lemma replace_first_app_in x s k :
  x ∈ s -> replace_first x (s ++ k) = replace_first x s ++ k.
Proof.
  induction s as [|c s IH]; [by intros ?%elem_of_nil|].
  intros Hin. cbn [app replace_first].
  destruct (N.eqb_spec c x) as [->|Hne]; [done|].
  apply elem_of_cons in Hin as [->|Hin]; [done|].
  by rewrite IH.
Qed.

(** What the normalization does to a match: the first U+0020 of its run of
    whitespace goes, the rest of the run stays. *)
Lemma normalize_match m :
  is_uos_code m ->
  ∃ u ws d,
    m = u ++ ws ++ d
    ∧ Forall (fun c => is_upper c) u ∧ Forall (fun c => is_space c) ws
    ∧ Forall (fun c => is_digit c) d
    ∧ replace_first 32 m = u ++ replace_first 32 ws ++ d.
Proof.
  intros (u & ws & d & -> & _ & Hu & Hws & _ & Hd).
  exists u, ws, d. repeat split; try done.
  assert (32%N ∉ u) as Hnu.
  { intros Hin. rewrite Forall_forall in Hu. by apply Hu in Hin. }
  assert (32%N ∉ d) as Hnd.
  { intros Hin. rewrite Forall_forall in Hd. by apply Hd in Hin. }
  rewrite replace_first_app_notin by done. f_equal.
  destruct (decide (32%N ∈ ws)) as [Hin|Hin].
  - by rewrite replace_first_app_in.
  - rewrite replace_first_app_notin by done.
    by rewrite !replace_first_notin.
Qed.

Lemma normalize_match_lengths m :
  is_uos_code m ->
  ∃ u ws d,
    m = u ++ ws ++ d
    ∧ length u = 4%nat ∧ Forall (fun c => is_upper c) u
    ∧ Forall (fun c => is_space c) ws
    ∧ length d = 4%nat ∧ Forall (fun c => is_digit c) d
    ∧ replace_first 32 m = u ++ replace_first 32 ws ++ d.
Proof.
  intros (u & ws & d & -> & Hlu & Hu & Hws & Hld & Hd).
  exists u, ws, d. repeat split; try done.
  assert (32%N ∉ u) as Hnu.
  { intros Hin. rewrite Forall_forall in Hu. by apply Hu in Hin. }
  assert (32%N ∉ d) as Hnd.
  { intros Hin. rewrite Forall_forall in Hd. by apply Hd in Hin. }
  rewrite replace_first_app_notin by done. f_equal.
  destruct (decide (32%N ∈ ws)) as [Hin|Hin].
  - by rewrite replace_first_app_in.
  - rewrite replace_first_app_notin by done.
    by rewrite !replace_first_notin.
Qed.

(** C2 (the program departs from it). The normalization of a match is
    [replace(' ', '')], which takes out the first U+0020 and nothing else:
    the whitespace of a match is gone only when it is at most one U+0020.
    A match with two spaces keeps one of them, a match with a tab keeps the
    tab, and the codes of a record then hold whitespace and the same code
    more than once. *)
Theorem normalization_leaves_whitespace :
  (∀ m, is_uos_code m ->
        ∃ u ws d,
          m = u ++ ws ++ d
          ∧ Forall (fun c => is_upper c) u ∧ Forall (fun c => is_space c) ws
          ∧ Forall (fun c => is_digit c) d
          ∧ replace_first 32 m = u ++ replace_first 32 ws ++ d)
  ∧ String_match uosCodeRegEx (lit "ABCD  1234") = Some [lit "ABCD  1234"]
  ∧ replace_first 32 (lit "ABCD  1234") = lit "ABCD 1234"
  ∧ String_match uosCodeRegEx tabbed_code = Some [tabbed_code]
  ∧ replace_first 32 tabbed_code = tabbed_code
  ∧ uosCodes [lit "ABCD  1234"; tabbed_code; lit "ABCD1234"]
    = [tabbed_code; lit "ABCD 1234"; lit "ABCD1234"]
  ∧ (main example_store example_connect example_options
       [[lit "id"]; [lit "r1006372"]] start).2
    = inr [ [Some (lit "id")];
            [Some (tabbed_code ++ lit ", ABCD 1234"); Some (lit "r1006372")] ].
Proof.
  split; [exact normalize_match|].
  repeat split; vm_compute; reflexivity.
Qed.

Lemma normalization_leaves_whitespace_witness :
  ∃ u ws d,
    lit "ABCD  1234" = u ++ ws ++ d
    ∧ Forall (fun c => is_upper c) u ∧ Forall (fun c => is_space c) ws
    ∧ Forall (fun c => is_digit c) d
    ∧ replace_first 32 (lit "ABCD  1234") = u ++ replace_first 32 ws ++ d.
Proof.
  apply (proj1 normalization_leaves_whitespace).
  exists (lit "ABCD"), (lit "  "), (lit "1234").
  split; [reflexivity|]. split; [reflexivity|].
  split; [|split; [|split; [reflexivity|]]]; repeat constructor.
Defined.

(** Taking all the whitespace out of a string. *)
Lemma strip_whitespace_app a b :
  strip_whitespace (a ++ b) = strip_whitespace a ++ strip_whitespace b.
Proof. apply filter_app. Qed.

Lemma strip_whitespace_none m :
  Forall (fun c => ¬ Is_true (is_space c)) m -> strip_whitespace m = m.
Proof.
  induction 1 as [|c m Hc _ IH]; [done|].
  unfold strip_whitespace in *. rewrite filter_cons_True by done.
  by rewrite IH.
Qed.

Lemma is_upper_not_space c : is_upper c -> ¬ Is_true (is_space c).
Proof.
  unfold is_upper, is_space.
  intros [H1%Is_true_true%N.leb_le H2%Is_true_true%N.leb_le]%andb_True Hs.
  repeat apply orb_True in Hs as [Hs|Hs];
    try (apply andb_True in Hs
           as [Ha%Is_true_true%N.leb_le Hb%Is_true_true%N.leb_le]; lia);
    apply Is_true_true, N.eqb_eq in Hs; lia.
Qed.

Lemma is_digit_not_space c : is_digit c -> ¬ Is_true (is_space c).
Proof.
  intros Hd Hs%Is_true_true. by rewrite (is_space_not_digit c Hs) in Hd.
Qed.

(** Where the whitespace of a match is at most one U+0020, taking the first
    U+0020 out takes all the whitespace out. *)
Lemma replace_first_strips m :
  is_uos_code m ->
  length m = 8%nat ∨ (length m = 9%nat ∧ m !! 4%nat = Some 32%N) ->
  replace_first 32 m = strip_whitespace m.
Proof.
  intros (u & ws & d & -> & Hlu & Hu & Hws & Hld & Hd & ->)
    %normalize_match_lengths Hone.
  rewrite !strip_whitespace_app.
  rewrite (strip_whitespace_none u), (strip_whitespace_none d).
  2: { eapply Forall_impl; [exact Hd|]. apply is_digit_not_space. }
  2: { eapply Forall_impl; [exact Hu|]. apply is_upper_not_space. }
  do 2 f_equal.
  destruct Hone as [Hlen|[Hlen H4]].
  - rewrite !length_app in Hlen. destruct ws; [done|]. simpl in Hlen. lia.
  - rewrite !length_app in Hlen.
    destruct ws as [|c0 [|c1 ws]]; simpl in Hlen; try lia.
    unfold jsstring in H4.
    rewrite lookup_app_r in H4 by lia. rewrite Hlu in H4.
    cbn in H4. injection H4 as ->. reflexivity.
Qed.

(** C1 (the program departs from it in the third tier). The resolution of a
    record number is a function of the course fields the store returned for
    it: the mapping holds [resolve] of the answer to the query for that
    number.  With no course field it is the record number itself, with its
    [r]; with course fields none of which has a match of the code pattern
    it is the text of the first field; with a match it is the strictly
    ascending list, each once, of the matches of all the fields after
    [replace(' ', '')].  These are the matches without their whitespace
    when each match has at most one U+0020 as its whitespace, and not
    otherwise: for the course fields [ABCD  1234] (two spaces) and
    [ABCD1234], which hold the one code [ABCD1234], the resolution is the
    two strings [ABCD 1234] and [ABCD1234]. *)
Theorem resolution_three_tiers {DB E : Type}
    (t_any : DB -> jsstring -> DB * (E + list jsstring))
    (connect : DB -> DB * option E)
    (rows : list row) (w w' : world DB E) (st : state)
    (x : row) (rns : list jsstring) (rn : jsstring) :
  (findUosCode t_any connect rows w = (w', inr st) ->
   x ∈ rows -> recordNumbers x = Some rns -> rn ∈ rns ->
   ∃ courseFields,
     (substr1 rn, inr courseFields) ∈ sent w w'
     ∧ mapping st !! rn = Some (resolve rn courseFields)
     ∧ (courseFields = [] -> resolve rn courseFields = Text rn)
     ∧ (∀ first rest,
          courseFields = first :: rest ->
          (∀ f ms, f ∈ courseFields -> scan is_uos_code f ms -> ms = []) ->
          resolve rn courseFields = Text first)
     ∧ (∀ f ms m,
          f ∈ courseFields -> scan is_uos_code f ms -> m ∈ ms ->
          ∃ codes,
            resolve rn courseFields = Codes codes
            ∧ StronglySorted str_lt codes
            ∧ (∀ c, c ∈ codes
                    <-> ∃ f ms m, f ∈ courseFields ∧ scan is_uos_code f ms
                                  ∧ m ∈ ms ∧ c = replace_first 32 m)
            ∧ ((∀ f ms m,
                  f ∈ courseFields -> scan is_uos_code f ms -> m ∈ ms ->
                  length m = 8%nat
                  ∨ (length m = 9%nat ∧ m !! 4%nat = Some 32%N)) ->
               ∀ c, c ∈ codes
                    <-> ∃ f ms m, f ∈ courseFields ∧ scan is_uos_code f ms
                                  ∧ m ∈ ms ∧ c = strip_whitespace m)))
  ∧ String_match uosCodeRegEx (lit "ABCD  1234") = Some [lit "ABCD  1234"]
  ∧ String_match uosCodeRegEx (lit "ABCD1234") = Some [lit "ABCD1234"]
  ∧ strip_whitespace (lit "ABCD  1234") = lit "ABCD1234"
  ∧ strip_whitespace (lit "ABCD1234") = lit "ABCD1234"
  ∧ resolve rn [lit "ABCD  1234"; lit "ABCD1234"]
    = Codes [lit "ABCD 1234"; lit "ABCD1234"].
Proof.
  split; [|repeat split; vm_compute; reflexivity].
  intros Hf Hx Hrns Hrn.
  destruct (findUosCode_entry _ _ _ _ _ _ _ _ _ Hf Hx Hrns Hrn)
    as (fs & Hq & Hm).
  exists fs. split; [done|]. split; [done|].
  destruct (resolve_tiers rn fs) as (Hnone & Hfirst & Hcodes).
  split; [done|]. split; [done|].
  intros f ms m Hfin Hms Hmin.
  destruct (Hcodes f ms m Hfin Hms Hmin) as (codes & Hres & Hsorted & Hiff).
  exists codes. split; [done|]. split; [done|]. split; [done|].
  intros Hone c. rewrite Hiff. split.
  - intros (f' & ms' & m' & Hf' & Hms' & Hm' & ->).
    exists f', ms', m'. repeat split; try done.
    apply replace_first_strips; [|by eapply Hone].
    apply scan_Forall in Hms'. rewrite Forall_forall in Hms'.
    by apply Hms'.
  - intros (f' & ms' & m' & Hf' & Hms' & Hm' & ->).
    exists f', ms', m'. repeat split; try done. symmetry.
    apply replace_first_strips; [|by eapply Hone].
    apply scan_Forall in Hms'. rewrite Forall_forall in Hms'.
    by apply Hms'.
Qed.

(** The pass over the example: record 1006349 has the fields
    [Unit ABCD 1234 readings] and [ABCD1234; AAAA0000], whose matches have
    at most one space, and its resolution is the two codes, each once. *)
Lemma resolution_three_tiers_witness :
  ∃ w' st,
    findUosCode example_store example_connect example_rows start
    = (w', inr st)
    ∧ (lit "1006349",
       inr [lit "Unit ABCD 1234 readings"; lit "ABCD1234; AAAA0000"])
      ∈ sent start w'
    ∧ mapping st !! lit "r1006349"
      = Some (Codes [lit "AAAA0000"; lit "ABCD1234"])
    ∧ resolve (lit "r1006349")
              [lit "Unit ABCD 1234 readings"; lit "ABCD1234; AAAA0000"]
      = Codes [lit "AAAA0000"; lit "ABCD1234"].
Proof.
  destruct (findUosCode example_store example_connect example_rows start)
    as [w' [e|st]] eqn:H.
  { exfalso. vm_compute in H. discriminate H. }
  exists w', st. split; [reflexivity|].
  destruct (proj1 (resolution_three_tiers example_store example_connect
                     example_rows start w' st
                     {| cells := [lit "r1006349 r1006370"; lit "x"];
                        recordNumbers :=
                          Some [lit "r1006349"; lit "r1006370"];
                        results := None |}
                     [lit "r1006349"; lit "r1006370"] (lit "r1006349")) H)
    as (courseFields & Hq & Hm & _ & _ & Hcodes).
  - apply list_elem_of_In. vm_compute. right. left. reflexivity.
  - reflexivity.
  - left.
  - assert (courseFields
            = [lit "Unit ABCD 1234 readings"; lit "ABCD1234; AAAA0000"])
      as ->.
    { vm_compute in H. injection H as <- _.
      apply list_elem_of_In in Hq. vm_compute in Hq.
      destruct Hq as [Hq|[Hq|[Hq|[]]]]; by injection Hq. }
    split; [exact Hq|]. split; [|vm_compute; reflexivity].
    rewrite Hm. vm_compute. reflexivity.
Defined.

(** ** The output projector *)

Lemma outputInNewColumn_imap o st :
  outputInNewColumn o st = imap (written_new o) (inputData st).
Proof.
  apply list_eq. intros i. unfold outputInNewColumn, Lodash.take, Lodash.drop.
  rewrite lookup_take_drop_map, list_lookup_imap.
  destruct (inputData st !! i) as [x|]; [|done]. option_step.
  unfold written_new. by destruct (decide (i < Z.to_nat (skip o))%nat).
Qed.

Lemma outputInExistingColumn_imap o st :
  outputInExistingColumn o st = imap (written_existing o) (inputData st).
Proof.
  apply list_eq. intros i.
  unfold outputInExistingColumn, Lodash.take, Lodash.drop.
  rewrite lookup_take_drop_map, list_lookup_imap.
  destruct (inputData st !! i) as [x|]; [|done]. option_step.
  unfold written_existing. by destruct (decide (i < Z.to_nat (skip o))%nat).
Qed.

(** An assignment at an integer that is not an array index leaves the
    elements as they are. *)
Lemma array_set_no_index {A} (a : list (option A)) (i : Z) (v : A) :
  i < 0 ∨ 4294967295 <= i -> array_set a i v = a.
Proof.
  intros Hi. unfold array_set.
  destruct (Z.ltb_spec i 0) as [?|?]; [done|].
  destruct (Z.leb_spec 4294967295 i) as [?|?]; [done|lia].
Qed.

(** Writing one cell of a row leaves every other cell as it reads. *)
Lemma array_set_cells (d : list jsstring) (rc : Z) (s : jsstring) :
  0 <= rc < 4294967295 ->
  cell_at (array_set (map Some d) rc s) (Z.to_nat rc) = Some s
  ∧ (∀ j, j ≠ Z.to_nat rc -> cell_at (array_set (map Some d) rc s) j = d !! j)
  ∧ length (array_set (map Some d) rc s)
    = (length d `max` (Z.to_nat rc + 1))%nat.
Proof.
  intros Hrc. unfold array_set, cell_at.
  destruct (Z.ltb_spec rc 0) as [?|_]; [lia|].
  destruct (Z.leb_spec 4294967295 rc) as [?|_]; [lia|]. cbn [orb].
  rewrite map_fmap, length_fmap. generalize (Z.to_nat rc). intros n.
  cbv zeta. destruct (Nat.ltb_spec n (length d)) as [Hn|Hn].
  - split; [|split].
    + rewrite list_lookup_insert_eq by (rewrite length_fmap; lia). done.
    + intros j Hj. rewrite list_lookup_insert_ne by done.
      rewrite list_lookup_fmap. by destruct (d !! j).
    + rewrite length_insert, length_fmap. lia.
  - split; [|split].
    + rewrite lookup_app_r by (rewrite length_fmap; lia).
      rewrite length_fmap.
      rewrite lookup_app_r by (rewrite length_replicate; lia).
      rewrite length_replicate. by replace (n - length d - (n - length d))%nat
        with 0%nat by lia.
    + intros j Hj. destruct (decide (j < length d)%nat) as [Hlt|Hge].
      * rewrite lookup_app_l by (by rewrite length_fmap).
        rewrite list_lookup_fmap. by destruct (d !! j).
      * rewrite (lookup_ge_None_2 d j) by lia.
        rewrite lookup_app_r by (rewrite length_fmap; lia).
        rewrite length_fmap.
        destruct (decide (j < n)%nat) as [Hjn|Hjn].
        -- rewrite lookup_app_l by (rewrite length_replicate; lia).
           by rewrite lookup_replicate_2 by lia.
        -- rewrite lookup_ge_None_2; [done|].
           rewrite length_app, length_replicate. simpl. lia.
    + rewrite !length_app, length_fmap, length_replicate. simpl. lia.
Qed.

Section Run.

Context {DB E : Type}.
Variable t_any : DB -> jsstring -> DB * (E + list jsstring).
Variable connect : DB -> DB * option E.

(** A run that ends well: every processed row had its record-number cell,
    the pass over the extracted row objects ended well, and the rows written
    are those of the row objects assembled with the mapping of the pass. *)
Lemma main_inr o data w w' out :
  main t_any connect o data w = (w', inr out) ->
  ∃ st,
    findUosCode t_any connect (imap (extracted o) data) w = (w', inr st)
    ∧ (∀ i d, data !! i = Some d -> processed o i d ->
              is_Some (index d (recordNumberColumn o)))
    ∧ out = imap (fun i d =>
                    (if wantsPrependedResults o then written_new o i
                     else written_existing o i)
                      (assembled (mapping st) (extracted o i d)))
                 data.
Proof.
  rewrite main_eq.
  destruct (augmentInputDataWithRecordNumbers o (loadInputFile data))
    as [e|rows] eqn:Haug; [done|].
  apply augmentInputDataWithRecordNumbers_inr in Haug as [-> Hall].
  destruct (findUosCode t_any connect _ w) as [w1 [e|st]]; [done|].
  intros [= <- <-]. exists st. split; [done|]. split; [done|].
  apply list_eq. intros i. rewrite list_lookup_imap.
  destruct (wantsPrependedResults o).
  - rewrite outputInNewColumn_imap. cbn [inputData].
    rewrite map_fmap, list_lookup_imap, list_lookup_fmap, list_lookup_imap.
    by destruct (data !! i).
  - rewrite outputInExistingColumn_imap. cbn [inputData].
    rewrite map_fmap, list_lookup_imap, list_lookup_fmap, list_lookup_imap.
    by destruct (data !! i).
Qed.

End Run.

(** ** The row result assembler *)

Lemma baseUniq_fmap_inj {A B} `{EqDecision A, EqDecision B} (f : A -> B)
    `{!Inj (=) (=) f} (l result : list A) :
  Lodash.baseUniq (f <$> result) (f <$> l) = f <$> Lodash.baseUniq result l.
Proof.
  revert result; induction l as [|x l IH]; intros result; [done|].
  rewrite fmap_cons. cbn [Lodash.baseUniq].
  destruct (decide (x ∈ result)) as [Hx|Hx].
  - rewrite decide_True by by apply list_elem_of_fmap_2. apply IH.
  - rewrite decide_False by by rewrite list_elem_of_fmap_inj.
    rewrite <- IH. by rewrite fmap_app.
Qed.

Lemma first_occurrences_fmap_inj {A B} `{EqDecision A, EqDecision B}
    (f : A -> B) `{!Inj (=) (=) f} (l : list A) :
  first_occurrences (f <$> l) = f <$> first_occurrences l.
Proof.
  rewrite <- !uniq_first_occurrences. apply (baseUniq_fmap_inj f l []).
Qed.

Lemma flatten_resolutions_Some vs :
  flatten_resolutions (Some <$> vs) = Some <$> (vs ≫= codes_of).
Proof.
  unfold flatten_resolutions.
  induction vs as [|v vs IH]; [done|].
  rewrite fmap_cons. cbn [map concat mbind list_bind].
  rewrite fmap_app. f_equal; [by destruct v|exact IH].
Qed.

Lemma lookup_all_Some (m : gmap jsstring resolution) rns :
  (∀ rn, rn ∈ rns -> is_Some (m !! rn)) ->
  ∃ vs,
    Forall2 (fun rn v => m !! rn = Some v) rns vs
    ∧ map (fun rn => m !! rn) rns = Some <$> vs.
Proof.
  induction rns as [|rn rns IH]; intros Hall.
  { exists []. split; [constructor|done]. }
  destruct (Hall rn) as [v Hv]; [left|].
  destruct IH as (vs & Hvs & Heq); [intros ? ?; apply Hall; by right|].
  exists (v :: vs). split; [by constructor|].
  cbn [map]. by rewrite Hv, Heq.
Qed.

(** C6. After a resolution pass that ended well, the assembly step gives
    every row with [recordNumbers] its [results]: the resolutions of its
    record numbers, in the order of the record numbers, each flattened one
    level (the codes of a list of codes, or the one text), and of these
    values the first occurrence of each, in the original order, not sorted.
    A row without [recordNumbers] is left as it is. *)
Theorem results_keep_first_occurrences {DB E : Type}
    (t_any : DB -> jsstring -> DB * (E + list jsstring))
    (connect : DB -> DB * option E)
    (rows : list row) (w w' : world DB E) (st : state) :
  findUosCode t_any connect rows w = (w', inr st) ->
  ∃ st',
    augmentInputDataWithResults (E:=E) st = inr st'
    ∧ length (inputData st') = length rows
    ∧ ∀ i x,
        rows !! i = Some x ->
        match recordNumbers x with
        | Some rns =>
            ∃ vs,
              Forall2 (fun rn v => mapping st !! rn = Some v) rns vs
              ∧ inputData st' !! i
                = Some (set_results
                          (Some <$> first_occurrences (vs ≫= codes_of)) x)
              ∧ NoDup (first_occurrences (vs ≫= codes_of))
              ∧ ∀ c, c ∈ first_occurrences (vs ≫= codes_of)
                     <-> c ∈ vs ≫= codes_of
        | None => inputData st' !! i = Some x
        end.
Proof.
  intros [Hrows Hall]%findUosCode_inr.
  eexists. split; [apply augmentInputDataWithResults_inr|].
  cbn [inputData]. rewrite Hrows, map_fmap. split; [by rewrite length_fmap|].
  intros i x Hx. rewrite list_lookup_fmap, Hx. option_step.
  unfold assembled. destruct (recordNumbers x) as [rns|] eqn:Hrns; [|done].
  destruct (lookup_all_Some (mapping st) rns) as (vs & Hvs & Heq).
  { intros rn Hrn.
    assert (rn ∈ uniqSetOfRecordNumbers rows) as Hin.
    { apply elem_of_uniqSetOfRecordNumbers.
      exists x, rns. split; [by eapply list_elem_of_lookup_2|done]. }
    apply list_elem_of_lookup in Hin as [k Hk].
    destruct (Forall2_lookup_l _ _ _ _ _ Hall Hk) as (qa & _ & fs & _ & Hm).
    by eexists. }
  exists vs. split; [done|]. split; [|apply first_occurrences_NoDup].
  rewrite Heq, flatten_resolutions_Some.
  rewrite first_occurrences_fmap_inj; [done|apply _].
Qed.

Lemma results_keep_first_occurrences_witness :
  ∃ w' st st',
    findUosCode example_store example_connect example_rows start = (w', inr st)
    ∧ augmentInputDataWithResults (E:=nat) st = inr st'
    ∧ (results <$> inputData st' !! 2%nat)
      = Some (Some [Some (lit "see the handbook"); Some (lit "AAAA0000");
                    Some (lit "ABCD1234")]).
Proof.
  destruct (findUosCode example_store example_connect example_rows start)
    as [w' [e|st]] eqn:H.
  { exfalso. vm_compute in H. discriminate H. }
  destruct (results_keep_first_occurrences example_store example_connect
              example_rows start w' st H) as (st' & Hst' & _ & _).
  exists w', st, st'. split; [reflexivity|]. split; [exact Hst'|].
  rewrite augmentInputDataWithResults_inr in Hst'.
  injection Hst' as <-.
  vm_compute in H. injection H as _ <-.
  vm_compute. reflexivity.
Defined.

(** ** The two output modes *)

Lemma cells_assembled m x : cells (assembled m x) = cells x.
Proof. unfold assembled. by destruct (recordNumbers x). Qed.

Lemma results_assembled_extracted m o i d :
  results (assembled m (extracted o i d))
  = (fun rns =>
       first_occurrences (flatten_resolutions (map (fun rn => m !! rn) rns)))
      <$> recordNumbers (extracted o i d).
Proof.
  unfold assembled. by destruct (recordNumbers (extracted o i d)).
Qed.

(** C3 (the program departs from it). In insert mode the rows past the
    skipped ones are written with one new leading cell, the joined results
    or the blank string, before their own cells; the skipped rows are
    written as they were read, without a new cell.  With the usual options
    the header of the example keeps its two cells while the rows below it
    have three. *)
Theorem insert_mode_skipped_rows_unchanged :
  (∀ o st i,
     outputInNewColumn o st !! i
     = (fun x =>
          if decide (i < Z.to_nat (skip o))%nat then Some <$> cells x
          else Some (from_option (join (lit ", ")) [] (results x))
               :: (Some <$> cells x))
         <$> inputData st !! i)
  ∧ (main example_store example_connect example_options example_data start).2
    = inr [ [Some (lit "id"); Some (lit "name")];
            [Some (lit "AAAA0000, ABCD1234, r1006370");
             Some (lit "r1006349 r1006370"); Some (lit "x")];
            [Some (lit "see the handbook, AAAA0000, ABCD1234");
             Some (lit "'r1006371'; r1006349"); Some (lit "y")];
            [Some []; Some (lit "none"); Some (lit "z")] ].
Proof.
  split; [|vm_compute; reflexivity].
  intros o st i. rewrite outputInNewColumn_imap, list_lookup_imap.
  destruct (inputData st !! i) as [x|]; [|done]. option_step. f_equal.
  unfold written_new. rewrite !map_fmap.
  destruct (decide (i < Z.to_nat (skip o))%nat); [done|].
  by destruct (results x).
Qed.

(** C7. In-place mode, in a run that ends well.  A skipped row is written
    with one blank cell before its own cells; a row past the skipped ones
    whose result cell is filled, or whose record-number cell has no record
    number, is written as it was read.  A row past the skipped ones with a
    blank result cell and record numbers has the results of the pass: each
    of its record numbers has its query among those sent and the mapping of
    the pass holds the resolution of the answer; when [resultColumn] is an
    array index, that is below 2^32 - 1, the row is written with the joined
    results in the cell at [resultColumn], every other cell reading as
    before; from 2^32 - 1 on the assignment writes no cell and the row is
    written as it was read. *)
Theorem in_place_mode_rows {DB E : Type}
    (t_any : DB -> jsstring -> DB * (E + list jsstring))
    (connect : DB -> DB * option E)
    (o : options) (data : list (list jsstring))
    (w w' : world DB E) (out : list written) :
  wantsPrependedResults o = false ->
  main t_any connect o data w = (w', inr out) ->
  ∃ st,
    findUosCode t_any connect (imap (extracted o) data) w = (w', inr st)
    ∧ ∀ i d,
        data !! i = Some d ->
        ∃ y,
          out !! i = Some y
          ∧ ((i < Z.to_nat (skip o))%nat -> y = Some [] :: (Some <$> d))
          ∧ ((Z.to_nat (skip o) <= i)%nat ->
             truthy (index d (resultColumn o)) = true ->
             y = Some <$> d)
          ∧ (∀ cell,
               (Z.to_nat (skip o) <= i)%nat ->
               index d (recordNumberColumn o) = Some cell ->
               exec_all recordNumberRegEx 0 cell = [] ->
               y = Some <$> d)
          ∧ (∀ cell,
               (Z.to_nat (skip o) <= i)%nat ->
               truthy (index d (resultColumn o)) = false ->
               index d (recordNumberColumn o) = Some cell ->
               exec_all recordNumberRegEx 0 cell ≠ [] ->
               (∀ rn,
                  rn ∈ exec_all recordNumberRegEx 0 cell ->
                  ∃ fs, (substr1 rn, inr fs) ∈ sent w w'
                        ∧ mapping st !! rn = Some (resolve rn fs))
               ∧ (resultColumn o < 4294967295 ->
                  cell_at y (Z.to_nat (resultColumn o))
                  = Some (join (lit ", ")
                            (first_occurrences
                               (flatten_resolutions
                                  (map (fun rn => mapping st !! rn)
                                       (exec_all recordNumberRegEx 0 cell)))))
                  ∧ (∀ j, j ≠ Z.to_nat (resultColumn o) ->
                          cell_at y j = d !! j)
                  ∧ length y
                    = (length d `max` (Z.to_nat (resultColumn o) + 1))%nat)
               ∧ (4294967295 <= resultColumn o -> y = Some <$> d)).
Proof.
  intros Hmode (st & Hf & Hcells & ->)%main_inr. rewrite Hmode.
  exists st. split; [done|].
  intros i d Hd. eexists. split; [by rewrite list_lookup_imap, Hd|].
  assert (0 <= resultColumn o) as Hrc.
  { unfold wantsPrependedResults in Hmode. apply Z.eqb_neq in Hmode.
    unfold resultColumn, Lodash.max in *. lia. }
  unfold written_existing.
  rewrite cells_assembled, results_assembled_extracted, !map_fmap.
  split; [|split; [|split]].
  - intros Hi. by rewrite decide_True.
  - intros Hi Ht. rewrite decide_False by lia.
    unfold extracted. cbn [recordNumbers cells].
    rewrite (decide_False (P:=processed o i d)); [done|].
    intros [_ [?|?]]; congruence.
  - intros cell Hi Hcell Hnone. rewrite decide_False by lia.
    unfold extracted. cbn [recordNumbers cells].
    destruct (decide (processed o i d)); [|done].
    rewrite Hcell. option_step.
    by rewrite (proj2 (String_match_None _ _) Hnone).
  - intros cell Hi Ht Hcell Hsome. rewrite decide_False by lia.
    assert (recordNumbers (extracted o i d)
            = Some (exec_all recordNumberRegEx 0 cell)) as Hrns.
    { unfold extracted. cbn [recordNumbers].
      rewrite (decide_True (P:=processed o i d)) by (split; [done|by right]).
      rewrite Hcell. option_step.
      by rewrite (proj2 (String_match_Some _ _ _) (conj eq_refl Hsome)). }
    rewrite Hrns. option_step. cbn [cells extracted].
    split; [|split].
    + intros rn Hrn.
      eapply findUosCode_entry; [exact Hf| |exact Hrns|exact Hrn].
      apply elem_of_lookup_imap. by exists i, d.
    + intros Hlt. rewrite <- (map_fmap Some d). apply array_set_cells. lia.
    + intros Hge. apply array_set_no_index. by right.
Qed.

(** In-place mode on an input with a blank, a filled and a missing result
    cell: the row with the blank cell gets the results of its two record
    numbers there, the others are written as read, the header gets a
    leading blank cell. *)
Lemma in_place_mode_rows_witness :
  ∃ w' out,
    main example_store example_connect in_place_options in_place_data start
    = (w', inr out)
    ∧ (∃ y, out !! 0%nat = Some y
            ∧ y = [Some []; Some (lit "id"); Some (lit "name");
                   Some (lit "codes")])
    ∧ (∃ y, out !! 1%nat = Some y
            ∧ cell_at y 2 = Some (lit "AAAA0000, ABCD1234, r1006370")
            ∧ cell_at y 0 = Some (lit "r1006349 r1006370")
            ∧ cell_at y 1 = Some (lit "x")
            ∧ length y = 3%nat)
    ∧ (∃ y, out !! 2%nat = Some y
            ∧ y = [Some (lit "r1006371"); Some (lit "y");
                   Some (lit "done")])
    ∧ (∃ y, out !! 3%nat = Some y
            ∧ y = [Some (lit "none"); Some (lit "z")]).
Proof.
  destruct (main example_store example_connect in_place_options in_place_data
              start) as [w' [e|out]] eqn:H.
  { exfalso. vm_compute in H. discriminate H. }
  exists w', out. split; [reflexivity|].
  destruct (in_place_mode_rows example_store example_connect in_place_options
              in_place_data start w' out eq_refl H) as (st & Hf & Hrows).
  vm_compute in Hf. injection Hf as Hw <-.
  split; [|split; [|split]].
  - destruct (Hrows 0%nat _ eq_refl) as (y & Hy & Hskip & _).
    exists y. split; [exact Hy|]. apply Hskip. vm_compute. lia.
  - destruct (Hrows 1%nat _ eq_refl) as (y & Hy & _ & _ & _ & Hres).
    destruct (Hres (lit "r1006349 r1006370")) as (_ & Hcell & _);
      [vm_compute; lia|reflexivity|reflexivity|by vm_compute|].
    destruct Hcell as (Hc & Hother & Hlen); [by vm_compute|].
    exists y. split; [exact Hy|]. split; [exact Hc|].
    split; [apply (Hother 0%nat); by vm_compute|].
    split; [apply (Hother 1%nat); by vm_compute|exact Hlen].
  - destruct (Hrows 2%nat _ eq_refl) as (y & Hy & _ & Hfilled & _).
    exists y. split; [exact Hy|]. apply Hfilled; [vm_compute; lia|reflexivity].
  - destruct (Hrows 3%nat _ eq_refl) as (y & Hy & _ & _ & Hnone & _).
    exists y. split; [exact Hy|].
    apply (Hnone (lit "none")); [vm_compute; lia|reflexivity|reflexivity].
Defined.

(** With [--result-column=4294967296] the result column is 2^32 - 1, which
    is no array index.  No row has a cell there, so every row past the
    header is processed: the records of the second row are looked up, and
    the row is written as it was read, without its results in any cell. *)
Lemma in_place_mode_far_result_column :
  ∃ w' out y,
    wantsPrependedResults far_options = false
    ∧ main example_store example_connect far_options in_place_data start
      = (w', inr out)
    ∧ in_place_data !! 1%nat = Some [lit "r1006349 r1006370"; lit "x"; []]
    ∧ truthy (index [lit "r1006349 r1006370"; lit "x"; []]
                    (resultColumn far_options)) = false
    ∧ exec_all recordNumberRegEx 0 (lit "r1006349 r1006370")
      = [lit "r1006349"; lit "r1006370"]
    ∧ (sent start w').*1 = [lit "1006349"; lit "1006370"; lit "1006371"]
    ∧ out !! 1%nat = Some y
    ∧ y = [Some (lit "r1006349 r1006370"); Some (lit "x"); Some []]
    ∧ cell_at y (Z.to_nat (resultColumn far_options)) = None.
Proof.
  eexists _, _, _. split; [reflexivity|].
  split; [lazy; reflexivity|].
  split; [reflexivity|]. split; [lazy; reflexivity|].
  split; [reflexivity|]. split; [reflexivity|].
  split; [reflexivity|]. split; [reflexivity|].
  unfold cell_at. rewrite lookup_ge_None_2; [reflexivity|].
  change (resultColumn far_options) with 4294967295.
  cbn [length]. lia.
Qed.

(** C8. Both output modes write one row for each row object, in the order
    of the input: the row written at a position is made from the row object
    at that position, whose cells are all in it, after a new leading cell
    or with the result cell set.  A run that ends well has written as many
    rows as it has read. *)
Theorem rows_kept_in_order {DB E : Type}
    (t_any : DB -> jsstring -> DB * (E + list jsstring))
    (connect : DB -> DB * option E)
    (o : options) (data : list (list jsstring))
    (w w' : world DB E) (out : list written) :
  main t_any connect o data w = (w', inr out) ->
  length out = length data
  ∧ (∀ i d,
       data !! i = Some d ->
       ∃ y,
         out !! i = Some y
         ∧ (y = Some <$> d
            ∨ (∃ s, y = Some s :: (Some <$> d))
            ∨ (∃ s, y = array_set (Some <$> d) (resultColumn o) s)))
  ∧ ∀ st,
      length (outputInNewColumn o st) = length (inputData st)
      ∧ length (outputInExistingColumn o st) = length (inputData st)
      ∧ ∀ i x,
          inputData st !! i = Some x ->
          (∃ y, outputInNewColumn o st !! i = Some y
                ∧ (y = Some <$> cells x
                   ∨ ∃ s, y = Some s :: (Some <$> cells x)))
          ∧ (∃ y, outputInExistingColumn o st !! i = Some y
                  ∧ (y = Some <$> cells x
                     ∨ y = Some [] :: (Some <$> cells x)
                     ∨ ∃ s, y = array_set (Some <$> cells x)
                                          (resultColumn o) s)).
Proof.
  assert (∀ i x, written_new o i x = Some <$> cells x
                 ∨ ∃ s, written_new o i x = Some s :: (Some <$> cells x))
    as Hnew.
  { intros i x. unfold written_new. rewrite !map_fmap.
    destruct (decide _); [by left|]. right. destruct (results x); by eexists. }
  assert (∀ i x, written_existing o i x = Some <$> cells x
                 ∨ written_existing o i x = Some [] :: (Some <$> cells x)
                 ∨ ∃ s, written_existing o i x
                        = array_set (Some <$> cells x) (resultColumn o) s)
    as Hexisting.
  { intros i x. unfold written_existing. rewrite !map_fmap.
    destruct (decide _); [by right; left|].
    destruct (results x); [right; right; by eexists|by left]. }
  assert (∀ m i d, cells (assembled m (extracted o i d)) = d) as Hcells.
  { intros m i d. by rewrite cells_assembled. }
  intros (st0 & _ & _ & ->)%main_inr. split; [by rewrite length_imap|]. split.
  - intros i d Hd. eexists. split; [by rewrite list_lookup_imap, Hd|].
    destruct (wantsPrependedResults o).
    + destruct (Hnew i (assembled (mapping st0) (extracted o i d)))
        as [->|[s ->]]; rewrite Hcells; eauto.
    + destruct (Hexisting i (assembled (mapping st0) (extracted o i d)))
        as [->|[->|[s ->]]]; rewrite Hcells; eauto.
  - intros st. rewrite outputInNewColumn_imap, outputInExistingColumn_imap.
    rewrite !length_imap. split; [done|]. split; [done|].
    intros i x Hx. rewrite !list_lookup_imap, Hx. option_step. split.
    + eexists. split; [done|]. apply Hnew.
    + eexists. split; [done|]. apply Hexisting.
Qed.

Lemma rows_kept_in_order_witness :
  ∃ w' out,
    main example_store example_connect example_options example_data start =
        (w', inr out)
    ∧ length out = length example_data.
Proof.
  destruct (main example_store example_connect example_options example_data
      start)
    as [w' [e|out]] eqn:H.
  { exfalso. vm_compute in H. discriminate H. }
  exists w', out. split; [reflexivity|].
  exact (proj1 (rows_kept_in_order example_store example_connect
                  example_options example_data start w' out H)).
Defined.

(** * Further properties of the program *)

(** ** The run as a whole *)

Section Whole.

Context {DB E : Type}.
Variable t_any : DB -> jsstring -> DB * (E + list jsstring).
Variable connect : DB -> DB * option E.

Lemma sent_same (w : world DB E) : sent w w = [].
Proof. unfold sent. by apply drop_all. Qed.

(** The world and the outcome of a run, from those of the resolution
    pass. *)
Lemma main_world o data w :
  (main t_any connect o data w).1
  = match augmentInputDataWithRecordNumbers (E:=E) o (loadInputFile data) with
    | inl _ => w
    | inr rows => (findUosCode t_any connect rows w).1
    end.
Proof.
  rewrite main_eq.
  destruct (augmentInputDataWithRecordNumbers o (loadInputFile data))
    as [e|rows]; [done|].
  by destruct (findUosCode t_any connect rows w) as [? [?|?]].
Qed.

Lemma main_outcome o data w :
  (main t_any connect o data w).2
  = match augmentInputDataWithRecordNumbers (E:=E) o (loadInputFile data) with
    | inl e => inl e
    | inr rows =>
        match (findUosCode t_any connect rows w).2 with
        | inl e => inl e
        | inr st =>
            let st' := {| inputData := map (assembled (mapping st)) rows;
                          mapping := mapping st |} in
            inr (if wantsPrependedResults o then outputInNewColumn o st'
                 else outputInExistingColumn o st')
        end
    end.
Proof.
  rewrite main_eq.
  destruct (augmentInputDataWithRecordNumbers o (loadInputFile data))
    as [e|rows]; [done|].
  by destruct (findUosCode t_any connect rows w) as [? [?|?]].
Qed.

(** Where the record numbers of the extracted rows come from. *)
Lemma elem_of_uniqSetOfRecordNumbers_extracted o data rn :
  rn ∈ uniqSetOfRecordNumbers (imap (extracted o) data)
  <-> ∃ i d cell,
        data !! i = Some d ∧ processed o i d
        ∧ index d (recordNumberColumn o) = Some cell
        ∧ rn ∈ exec_all recordNumberRegEx 0 cell.
Proof.
  rewrite elem_of_uniqSetOfRecordNumbers. split.
  - intros (x & rns & Hx & Hrns & Hrn).
    apply elem_of_lookup_imap in Hx as (i & d & -> & Hd).
    unfold extracted in Hrns. cbn [recordNumbers] in Hrns.
    destruct (decide (processed o i d)) as [Hp|]; [|done].
    destruct (index d (recordNumberColumn o)) as [cell|] eqn:Hc; [|done].
    revert Hrns. option_step. intros [<- _]%String_match_Some.
    by exists i, d, cell.
  - intros (i & d & cell & Hd & Hp & Hc & Hrn).
    exists (extracted o i d), (exec_all recordNumberRegEx 0 cell).
    split; [by eapply elem_of_lookup_imap_2|]. split; [|done].
    unfold extracted. cbn [recordNumbers].
    rewrite decide_True by done. rewrite Hc. option_step.
    apply String_match_Some. split; [done|].
    intros Hnil. rewrite Hnil in Hrn. by apply elem_of_nil in Hrn.
Qed.

(** The arguments of the queries of a run. *)
Lemma main_args o data w :
  ∃ k, (sent w (main t_any connect o data w).1).*1
       = substr1 <$> take k (uniqSetOfRecordNumbers (imap (extracted o) data)).
Proof.
  rewrite main_world.
  destruct (augmentInputDataWithRecordNumbers o (loadInputFile data))
    as [e|rows] eqn:Haug.
  - exists 0%nat. by rewrite sent_same, take_0.
  - apply augmentInputDataWithRecordNumbers_inr in Haug as [-> _].
    eapply findUosCode_args. apply surjective_pairing.
Qed.

End Whole.

(** ** The options *)

Section Options.

Context {DB E : Type}.
Variable t_any : DB -> jsstring -> DB * (E + list jsstring).
Variable connect : DB -> DB * option E.

(** A run reads its options through three numbers only. *)
Lemma main_options_ext o o' data w :
  Z.to_nat (skip o) = Z.to_nat (skip o') ->
  recordNumberColumn o = recordNumberColumn o' ->
  resultColumn o = resultColumn o' ->
  main t_any connect o data w = main t_any connect o' data w.
Proof.
  intros Hskip Hrnc Hrc.
  assert (wantsPrependedResults o = wantsPrependedResults o') as Hmode.
  { unfold wantsPrependedResults. by rewrite Hrc. }
  assert (∀ h, rowsToProcess o h = rowsToProcess o' h) as Hrows.
  { intros h. unfold rowsToProcess, Lodash.drop. by rewrite Hskip, Hmode, Hrc. }
  assert (∀ h, augmentInputDataWithRecordNumbers (E:=E) o h
               = augmentInputDataWithRecordNumbers o' h) as Haug.
  { intros h. unfold augmentInputDataWithRecordNumbers.
    by rewrite Hrows, Hrnc. }
  assert (∀ st, outputInNewColumn o st = outputInNewColumn o' st) as Hnew.
  { intros st. unfold outputInNewColumn, Lodash.take, Lodash.drop.
    by rewrite Hskip. }
  assert (∀ st, outputInExistingColumn o st = outputInExistingColumn o' st)
    as Hexisting.
  { intros st. unfold outputInExistingColumn, Lodash.take, Lodash.drop.
    by rewrite Hskip, Hrc. }
  rewrite !main_eq, Haug, Hmode.
  destruct (augmentInputDataWithRecordNumbers o' (loadInputFile data))
    as [e|rows]; [done|].
  destruct (findUosCode t_any connect rows w) as [w' [e|st]]; [done|].
  cbv zeta. by rewrite Hnew, Hexisting.
Qed.

(** X1. The options are clamped: a negative [--skip] counts as 0, a
    [--column] below 1 as 1 and a [--result-column] below 0 as 0, so that a
    run with any integers is the run with the clamped ones; the mode is
    insert mode exactly when [--result-column] is 0 or less. *)
Theorem options_are_clamped (o : options) (data : list (list jsstring))
    (w : world DB E) :
  main t_any connect o data w
  = main t_any connect
         {| skip := Z.max (skip o) 0;
            column := Z.max (column o) 1;
            result_column := Z.max (result_column o) 0 |} data w
  ∧ (wantsPrependedResults o = true <-> result_column o <= 0)
  ∧ 0 <= recordNumberColumn o
  ∧ -1 <= resultColumn o.
Proof.
  split; [|split].
  - apply main_options_ext;
      unfold recordNumberColumn, resultColumn, Lodash.max; cbn [skip column
        result_column]; lia.
  - unfold wantsPrependedResults, resultColumn, Lodash.max.
    rewrite Z.eqb_eq. lia.
  - unfold recordNumberColumn, resultColumn, Lodash.max. lia.
Qed.

End Options.

(** ** The queries of a run *)

Lemma str_lt_tail c a b : str_lt (c :: a) (c :: b) -> str_lt a b.
Proof. unfold str_lt. cbn [str_ltb]. by rewrite N.ltb_irrefl. Qed.

Lemma substr1_record_number_mono a b :
  is_record_number a -> is_record_number b ->
  str_lt a b -> str_lt (substr1 a) (substr1 b).
Proof.
  intros (d & -> & _) (d' & -> & _). unfold substr1. cbn [drop].
  rewrite !drop_0. apply str_lt_tail.
Qed.

Lemma StronglySorted_fmap_Forall {A B} (P : A -> Prop) (f : A -> B)
    (R1 : relation A) (R2 : relation B) l :
  (∀ x y, P x -> P y -> R1 x y -> R2 (f x) (f y)) ->
  Forall P l -> StronglySorted R1 l -> StronglySorted R2 (f <$> l).
Proof.
  intros Hf HP Hl. induction Hl as [|x l Hl IH Hx]; [constructor|].
  apply Forall_cons in HP as [HPx HP]. rewrite fmap_cons.
  constructor; [by apply IH|].
  rewrite Forall_fmap. rewrite Forall_forall in Hx, HP |- *.
  intros y Hy. apply Hf; auto.
Qed.

Lemma StronglySorted_take {A} (R : relation A) l n :
  StronglySorted R l -> StronglySorted R (take n l).
Proof.
  intros Hl. rewrite <- (take_drop n l) in Hl.
  by apply StronglySorted_app_1_l in Hl.
Qed.

Lemma uniqSetOfRecordNumbers_sorted rows :
  StronglySorted str_lt (uniqSetOfRecordNumbers rows).
Proof. apply sortedUniq_sortBy. Qed.

Section Queries.

Context {DB E : Type}.
Variable t_any : DB -> jsstring -> DB * (E + list jsstring).
Variable connect : DB -> DB * option E.

(** X2. Whatever the cells hold, the store is only asked about strings of
    seven digits: the argument of every query a run sends is a record number
    found in a cell, without its [r]. *)
Theorem query_arguments_are_seven_digits (o : options)
    (data : list (list jsstring)) (w : world DB E)
    (qa : jsstring * (E + list jsstring)) :
  qa ∈ sent w (main t_any connect o data w).1 ->
  length qa.1 = 7%nat ∧ Forall (fun c => is_digit c) qa.1.
Proof.
  intros Hqa. destruct (main_args t_any connect o data w) as [k Hargs].
  assert (qa.1 ∈ (sent w (main t_any connect o data w).1).*1) as Hin
    by by apply list_elem_of_fmap_2.
  rewrite Hargs in Hin. apply list_elem_of_fmap in Hin as (rn & -> & Hrn).
  apply (subseteq_take k) in Hrn.
  pose proof (uniqSetOfRecordNumbers_extracted o data) as Hall.
  rewrite Forall_forall in Hall.
  destruct (Hall rn Hrn) as (d & -> & Hlen & Hdig).
  unfold substr1. cbn [drop]. by rewrite drop_0.
Qed.

(** X3. The queries of a run are sent in strictly ascending order of their
    arguments, whatever the order of the rows. *)
Theorem queries_in_ascending_order (o : options)
    (data : list (list jsstring)) (w : world DB E) :
  StronglySorted str_lt (sent w (main t_any connect o data w).1).*1.
Proof.
  destruct (main_args t_any connect o data w) as [k ->].
  apply (StronglySorted_fmap_Forall is_record_number _ str_lt).
  - apply substr1_record_number_mono.
  - apply Forall_take, uniqSetOfRecordNumbers_extracted.
  - apply StronglySorted_take, uniqSetOfRecordNumbers_sorted.
Qed.

(** X4. Every query of a run is for a record number that stands in the
    record-number cell of a processed row: a record number that only
    occurs in skipped rows, in rows whose result cell is filled, or in
    other cells, is never asked for.  In a run that ends well every record
    number of such a cell has been asked for. *)
Theorem queries_come_from_processed_rows (o : options)
    (data : list (list jsstring)) (w : world DB E) :
  (∀ qa,
     qa ∈ sent w (main t_any connect o data w).1 ->
     ∃ i d cell rn,
       data !! i = Some d ∧ processed o i d
       ∧ index d (recordNumberColumn o) = Some cell
       ∧ rn ∈ exec_all recordNumberRegEx 0 cell
       ∧ qa.1 = substr1 rn)
  ∧ (∀ out i d cell rn,
       (main t_any connect o data w).2 = inr out ->
       data !! i = Some d -> processed o i d ->
       index d (recordNumberColumn o) = Some cell ->
       rn ∈ exec_all recordNumberRegEx 0 cell ->
       substr1 rn ∈ (sent w (main t_any connect o data w).1).*1).
Proof.
  split.
  - intros qa Hqa. destruct (main_args t_any connect o data w) as [k Hargs].
    assert (qa.1 ∈ (sent w (main t_any connect o data w).1).*1) as Hin
      by by apply list_elem_of_fmap_2.
    rewrite Hargs in Hin. apply list_elem_of_fmap in Hin as (rn & -> & Hrn).
    apply (subseteq_take k), elem_of_uniqSetOfRecordNumbers_extracted in Hrn
      as (i & d & cell & Hd & Hp & Hc & Hrn).
    by exists i, d, cell, rn.
  - intros out i d cell rn Hout Hd Hp Hc Hrn.
    rewrite main_outcome in Hout. rewrite main_world.
    destruct (augmentInputDataWithRecordNumbers o (loadInputFile data))
      as [e|rows] eqn:Haug; [done|].
    apply augmentInputDataWithRecordNumbers_inr in Haug as [-> _].
    destruct (findUosCode t_any connect (imap (extracted o) data) w)
      as [w' [e|st]] eqn:Hf; [done|]. cbn [fst].
    apply findUosCode_inr in Hf as [_ Hall].
    assert (rn ∈ uniqSetOfRecordNumbers (imap (extracted o) data)) as Hin.
    { apply elem_of_uniqSetOfRecordNumbers_extracted. by exists i, d, cell. }
    apply list_elem_of_lookup in Hin as [j Hj].
    destruct (Forall2_lookup_l _ _ _ _ _ Hall Hj) as (qa & Hqa & fs & -> & _).
    apply list_elem_of_fmap. eexists. split; [|by eapply list_elem_of_lookup_2].
    done.
Qed.

End Queries.

Lemma query_arguments_are_seven_digits_witness :
  length (lit "1006349") = 7%nat
  ∧ Forall (fun c => is_digit c) (lit "1006349").
Proof.
  apply (query_arguments_are_seven_digits example_store example_connect
           example_options example_data start
           (lit "1006349",
            inr [lit "Unit ABCD 1234 readings"; lit "ABCD1234; AAAA0000"])).
  apply list_elem_of_In. vm_compute. left. reflexivity.
Defined.

Lemma queries_come_from_processed_rows_witness :
  ∃ i d cell rn,
    example_data !! i = Some d ∧ processed example_options i d
    ∧ index d (recordNumberColumn example_options) = Some cell
    ∧ rn ∈ exec_all recordNumberRegEx 0 cell
    ∧ lit "1006371" = substr1 rn.
Proof.
  apply (proj1 (queries_come_from_processed_rows example_store example_connect
                  example_options example_data start)
           (lit "1006371", inr [lit "see the handbook"])).
  apply list_elem_of_In. vm_compute. right. right. left. reflexivity.
Defined.

(** ** The resolution pass and the set of record numbers *)

Lemma str_lt_unique l1 l2 :
  StronglySorted str_lt l1 -> StronglySorted str_lt l2 ->
  (∀ x, x ∈ l1 <-> x ∈ l2) -> l1 = l2.
Proof.
  intros H1 H2 Hin. apply (StronglySorted_unique_strong str_lt); try done.
  - intros x1 x2 _ _ H12 H21. unfold str_lt in *.
    by rewrite (str_ltb_asym _ _ H12) in H21.
  - apply NoDup_Permutation; [by apply StronglySorted_str_lt_NoDup..|done].
Qed.

Section PassProperties.

Context {DB E : Type}.
Variable t_any : DB -> jsstring -> DB * (E + list jsstring).
Variable connect : DB -> DB * option E.

(** X5. The resolution pass depends on the rows only through the set of
    their record numbers: two lists of rows with the same record numbers,
    in whatever order and however often, make the same queries in the same
    order and give the same mapping or the same error. *)
Theorem pass_depends_on_the_set_of_record_numbers
    (rows rows' : list row) (w : world DB E) :
  (∀ rn,
     (∃ x rns, x ∈ rows ∧ recordNumbers x = Some rns ∧ rn ∈ rns)
     <-> (∃ x rns, x ∈ rows' ∧ recordNumbers x = Some rns ∧ rn ∈ rns)) ->
  uniqSetOfRecordNumbers rows = uniqSetOfRecordNumbers rows'
  ∧ findUosCode t_any connect rows' w
    = match findUosCode t_any connect rows w with
      | (w', inl e) => (w', inl e)
      | (w', inr st) =>
          (w', inr {| inputData := rows'; mapping := mapping st |})
      end.
Proof.
  intros Hsame.
  assert (uniqSetOfRecordNumbers rows = uniqSetOfRecordNumbers rows') as Heq.
  { apply str_lt_unique; [apply uniqSetOfRecordNumbers_sorted..|].
    intros rn. by rewrite !elem_of_uniqSetOfRecordNumbers. }
  split; [done|]. rewrite !findUosCode_eq, Heq.
  destruct (connect (db w)) as [db' [e|]]; [done|].
  by destruct (task t_any (uniqSetOfRecordNumbers rows') ∅ _) as [? [?|?]].
Qed.

(** What a pass that ends well leaves in the mapping. *)
Lemma findUosCode_mapping_dom rows w w' st :
  findUosCode t_any connect rows w = (w', inr st) ->
  ∀ k, is_Some (mapping st !! k) <-> k ∈ uniqSetOfRecordNumbers rows.
Proof.
  rewrite findUosCode_eq.
  destruct (connect (db w)) as [db' [e|]]; [done|].
  destruct (task t_any (uniqSetOfRecordNumbers rows) ∅ _)
    as [w1 [e|m]] eqn:Ht; [done|].
  intros [= <- <-]. cbn [mapping].
  apply task_spec in Ht as (tr & _ & Hall & Hother);
    [|apply uniqSetOfRecordNumbers_NoDup].
  intros k. split.
  - intros Hk. destruct (decide (k ∈ uniqSetOfRecordNumbers rows)); [done|].
    rewrite Hother, lookup_empty in Hk by done. by destruct Hk.
  - intros [i Hi]%list_elem_of_lookup.
    destruct (Forall2_lookup_l _ _ _ _ _ Hall Hi) as (qa & _ & fs & _ & Hm).
    by eexists.
Qed.

(** X6. After a pass that ends well the mapping has an entry exactly for the
    record numbers of the rows, and as many entries as queries were sent:
    [mapping.get] is [undefined] for anything else and for nothing that a
    row names. *)
Theorem mapping_holds_the_record_numbers
    (rows : list row) (w w' : world DB E) (st : state) :
  findUosCode t_any connect rows w = (w', inr st) ->
  (∀ k,
     is_Some (mapping st !! k)
     <-> ∃ x rns, x ∈ rows ∧ recordNumbers x = Some rns ∧ k ∈ rns)
  ∧ size (mapping st) = length (sent w w').
Proof.
  intros Hf. pose proof (findUosCode_mapping_dom _ _ _ _ Hf) as Hdom.
  split.
  - intros k. by rewrite Hdom, elem_of_uniqSetOfRecordNumbers.
  - apply findUosCode_inr in Hf as [_ Hall].
    rewrite <- (Forall2_length _ _ _ Hall).
    assert (dom (mapping st)
            = list_to_set (C:=gset jsstring) (uniqSetOfRecordNumbers rows))
      as Hd.
    { apply set_eq. intros k.
      by rewrite elem_of_dom, Hdom, elem_of_list_to_set. }
    rewrite <- size_dom, Hd.
    apply size_list_to_set, uniqSetOfRecordNumbers_NoDup.
Qed.

End PassProperties.

Lemma pass_depends_on_the_set_of_record_numbers_witness :
  uniqSetOfRecordNumbers example_rows
  = uniqSetOfRecordNumbers (reverse example_rows ++ example_rows).
Proof.
  apply (pass_depends_on_the_set_of_record_numbers example_store example_connect
           example_rows (reverse example_rows ++ example_rows) start).
  intros rn. split.
  - intros (x & rns & Hx & Hrns & Hrn). exists x, rns.
    split; [|split; [exact Hrns|exact Hrn]].
    apply elem_of_app. right. exact Hx.
  - intros (x & rns & Hx & Hrns & Hrn). exists x, rns.
    split; [|split; [exact Hrns|exact Hrn]].
    apply elem_of_app in Hx as [Hx|Hx]; [|exact Hx].
    apply elem_of_reverse in Hx. exact Hx.
Defined.

Lemma mapping_holds_the_record_numbers_witness :
  ∃ w' st,
    findUosCode example_store example_connect example_rows start = (w', inr st)
    ∧ size (mapping st) = length (sent start w').
Proof.
  destruct (findUosCode example_store example_connect example_rows start)
    as [w' [e|st]] eqn:H.
  { exfalso. vm_compute in H. discriminate H. }
  exists w', st. split; [reflexivity|].
  exact (proj2 (mapping_holds_the_record_numbers example_store example_connect
                  example_rows start w' st H)).
Defined.

(** ** More on the assembler *)

Section UniqMore.

Context {A : Type} `{EqDecision A}.

Lemma elem_of_baseUniq (l result : list A) x :
  x ∈ Lodash.baseUniq result l <-> x ∈ result ∨ x ∈ l.
Proof.
  revert result; induction l as [|y l IH]; intros result;
    cbn [Lodash.baseUniq].
  { rewrite elem_of_nil. tauto. }
  destruct (decide (y ∈ result)) as [Hy|Hy]; rewrite IH.
  - rewrite elem_of_cons. split; [tauto|]. intros [?|[->|?]]; tauto.
  - rewrite elem_of_app, list_elem_of_singleton, elem_of_cons. tauto.
Qed.

Lemma baseUniq_app (l k result : list A) :
  Lodash.baseUniq result (l ++ k)
  = Lodash.baseUniq (Lodash.baseUniq result l) k.
Proof.
  revert result; induction l as [|y l IH]; intros result; [done|].
  cbn [app Lodash.baseUniq]. by destruct (decide (y ∈ result)).
Qed.

Lemma baseUniq_known (l result : list A) :
  (∀ x, x ∈ l -> x ∈ result) -> Lodash.baseUniq result l = result.
Proof.
  revert result; induction l as [|y l IH]; intros result Hl; [done|].
  cbn [Lodash.baseUniq]. rewrite decide_True by (apply Hl; left).
  apply IH. intros x Hx. apply Hl. by right.
Qed.

Lemma baseUniq_prefix (l result : list A) :
  Lodash.baseUniq result l
  = result ++ drop (length result) (Lodash.baseUniq result l).
Proof.
  rewrite (baseUniq_positions l result) at 2.
  rewrite drop_app_length. apply baseUniq_positions.
Qed.

End UniqMore.

(** Values that come with a key seen before add nothing. *)
Lemma baseUniq_bind {A B} `{EqDecision A, EqDecision B} (f : A -> list B)
    (l seen : list A) (result : list B) :
  (∀ x y, x ∈ seen -> y ∈ f x -> y ∈ result) ->
  Lodash.baseUniq result (l ≫= f)
  = Lodash.baseUniq result
      (drop (length seen) (Lodash.baseUniq seen l) ≫= f).
Proof.
  revert seen result; induction l as [|x l IH]; intros seen result Hseen.
  { cbn [Lodash.baseUniq]. by rewrite drop_all. }
  rewrite bind_cons, baseUniq_app. cbn [Lodash.baseUniq].
  destruct (decide (x ∈ seen)) as [Hx|Hx].
  - rewrite (baseUniq_known (f x)) by (intros y; by apply Hseen).
    by apply IH.
  - rewrite (baseUniq_prefix l (seen ++ [x])), <- app_assoc.
    rewrite drop_app_length. cbn [app].
    rewrite bind_cons, baseUniq_app.
    apply IH. intros z y [Hz| ->%list_elem_of_singleton]%elem_of_app Hy.
    + apply elem_of_baseUniq. left. by apply (Hseen z).
    + apply elem_of_baseUniq. by right.
Qed.

Lemma uniq_bind_uniq {A B} `{EqDecision A, EqDecision B} (f : A -> list B)
    (l : list A) :
  Lodash.uniq (l ≫= f) = Lodash.uniq (Lodash.uniq l ≫= f).
Proof.
  unfold Lodash.uniq at 1 2.
  rewrite (baseUniq_bind f l [] []) by (intros ? ? ?%elem_of_nil; done).
  by rewrite drop_0.
Qed.

Lemma flatten_resolutions_bind (vs : list (option resolution)) :
  flatten_resolutions vs
  = vs ≫= (fun v => match v with
                    | Some (Codes uosCodes) => map Some uosCodes
                    | Some (Text s) => [Some s]
                    | None => [None]
                    end).
Proof.
  unfold flatten_resolutions. induction vs as [|v vs IH]; [done|].
  cbn [map concat]. by rewrite bind_cons, IH.
Qed.

Lemma bind_fmap {A B C} (f : A -> B) (g : B -> list C) (l : list A) :
  (f <$> l) ≫= g = l ≫= (fun x => g (f x)).
Proof.
  induction l as [|x l IH]; [done|].
  by rewrite fmap_cons, !bind_cons, IH.
Qed.

Lemma resolve_codes_nonempty rn fs : codes_of (resolve rn fs) ≠ [].
Proof.
  unfold resolve.
  destruct (uosCodes fs) as [|c cs] eqn:Hc; cbn [length Nat.ltb Nat.leb].
  - by destruct fs.
  - done.
Qed.

Section AssemblerProperties.

Context {DB E : Type}.
Variable t_any : DB -> jsstring -> DB * (E + list jsstring).
Variable connect : DB -> DB * option E.

(** X7. After the extraction, a resolution pass that ended well and the
    assembly, a row has [results] exactly when it has [recordNumbers], and
    its [results] are never the empty list, hold no [undefined] and hold no
    value twice. *)
Theorem results_go_with_record_numbers (o : options)
    (data : list (list jsstring)) (rows : list row)
    (w w' : world DB E) (st st' : state) :
  augmentInputDataWithRecordNumbers (E:=E) o (loadInputFile data) = inr rows ->
  findUosCode t_any connect rows w = (w', inr st) ->
  augmentInputDataWithResults (E:=E) st = inr st' ->
  ∀ i x,
    inputData st' !! i = Some x ->
    (is_Some (results x) <-> is_Some (recordNumbers x))
    ∧ ∀ r, results x = Some r ->
           r ≠ [] ∧ Forall is_Some r ∧ NoDup r.
Proof.
  intros [-> _]%augmentInputDataWithRecordNumbers_inr Hf.
  pose proof (findUosCode_mapping_dom _ _ _ _ _ _ Hf) as Hdom.
  pose proof (findUosCode_inr _ _ _ _ _ _ Hf) as [Hrows Hall].
  rewrite augmentInputDataWithResults_inr. intros [= <-]. cbn [inputData].
  rewrite Hrows. intros i x.
  rewrite map_fmap, list_lookup_fmap, list_lookup_imap.
  destruct (data !! i) as [d|] eqn:Hd; [|done]. option_step. intros [= <-].
  pose proof (results_assembled_extracted (mapping st) o i d) as Hres.
  assert (recordNumbers (assembled (mapping st) (extracted o i d))
          = recordNumbers (extracted o i d)) as Hrn.
  { unfold assembled.
    by destruct (recordNumbers (extracted o i d)) eqn:H. }
  rewrite Hres, Hrn.
  destruct (recordNumbers (extracted o i d)) as [rns|] eqn:Hrns.
  - split; [by split; eexists|]. option_step. intros r [= <-].
    destruct (lookup_all_Some (mapping st) rns) as (vs & Hvs & Heq).
    { intros rn Hrn'. apply Hdom, elem_of_uniqSetOfRecordNumbers.
      exists (extracted o i d), rns.
      split; [by eapply elem_of_lookup_imap_2|done]. }
    rewrite Heq, flatten_resolutions_Some.
    rewrite first_occurrences_fmap_inj; [|apply _].
    destruct (first_occurrences_NoDup (vs ≫= codes_of)) as [Hnd Hin].
    split; [|split].
    + assert (rns ≠ []) as Hne.
      { unfold extracted in Hrns. cbn [recordNumbers] in Hrns.
        destruct (decide _); [|done].
        destruct (index d (recordNumberColumn o)); [|done].
        revert Hrns. option_step. by intros [_ ?]%String_match_Some. }
      destruct Hvs as [|rn v rns' vs' Hv Hvs]; [done|].
      assert (rn ∈ uniqSetOfRecordNumbers (imap (extracted o) data)) as Hrn'.
      { apply elem_of_uniqSetOfRecordNumbers.
        exists (extracted o i d), (rn :: rns').
        split; [by eapply elem_of_lookup_imap_2|]. split; [done|left]. }
      apply list_elem_of_lookup in Hrn' as [j Hj].
      destruct (Forall2_lookup_l _ _ _ _ _ Hall Hj) as (qa & _ & fs & _ & Hm).
      rewrite Hm in Hv. injection Hv as <-.
      pose proof (resolve_codes_nonempty rn fs) as Hc.
      destruct (codes_of (resolve rn fs)) as [|c cs] eqn:Hcs; [done|].
      assert (c ∈ first_occurrences ((resolve rn fs :: vs') ≫= codes_of))
        as Hc'.
      { apply Hin. rewrite bind_cons, Hcs. left. }
      intros Hnil%fmap_nil_inv. rewrite Hnil in Hc'.
      by apply elem_of_nil in Hc'.
    + apply Forall_fmap, Forall_true. by eexists.
    + by apply (NoDup_fmap_2 Some).
  - split; [|done]. option_step. split; by intros [? ?].
Qed.

(** X8. A record number that stands more than once in a cell adds its
    values once: the assembly step gives a row the [results] it would get
    from the first occurrences of its record numbers. *)
Theorem repeated_record_numbers_add_nothing (st st' : state) (i : nat)
    (x : row) (rns : list jsstring) :
  augmentInputDataWithResults (E:=E) st = inr st' ->
  inputData st !! i = Some x ->
  recordNumbers x = Some rns ->
  results <$> inputData st' !! i
  = Some (Some (Lodash.uniq
                  (flatten_resolutions
                     (map (fun rn => mapping st !! rn) (Lodash.uniq rns))))).
Proof.
  rewrite augmentInputDataWithResults_inr. intros [= <-] Hx Hrns.
  cbn [inputData]. rewrite map_fmap, list_lookup_fmap, Hx. option_step.
  unfold assembled. rewrite Hrns. cbn [set_results results].
  rewrite <- uniq_first_occurrences, !flatten_resolutions_bind, !map_fmap.
  rewrite !bind_fmap. do 2 f_equal. apply uniq_bind_uniq.
Qed.

End AssemblerProperties.

Lemma results_go_with_record_numbers_witness :
  ∃ w' st st',
    findUosCode example_store example_connect example_rows start = (w', inr st)
    ∧ augmentInputDataWithResults (E:=nat) st = inr st'
    ∧ ∀ i x,
        inputData st' !! i = Some x ->
        (is_Some (results x) <-> is_Some (recordNumbers x)).
Proof.
  destruct (findUosCode example_store example_connect example_rows start)
    as [w' [e|st]] eqn:H.
  { exfalso. vm_compute in H. discriminate H. }
  exists w', st. eexists. split; [reflexivity|].
  split; [apply augmentInputDataWithResults_inr|].
  intros i x Hx.
  refine (proj1 (results_go_with_record_numbers example_store example_connect
                   example_options example_data example_rows start w' st _ _ H
                   (augmentInputDataWithResults_inr st) i x Hx)).
  vm_compute. reflexivity.
Defined.

Lemma repeated_record_numbers_add_nothing_witness :
  ∃ st',
    augmentInputDataWithResults (E:=nat) repeated_state = inr st'
    ∧ results <$> inputData st' !! 0%nat
      = Some (Some [Some (lit "AAAA0000"); Some (lit "ABCD1234");
                    Some (lit "r1006370")]).
Proof.
  eexists. split; [apply augmentInputDataWithResults_inr|].
  rewrite (repeated_record_numbers_add_nothing (E:=nat) repeated_state _ 0%nat
             {| cells := [lit "r1006349 r1006370 r1006349"];
                recordNumbers :=
                  Some [lit "r1006349"; lit "r1006370"; lit "r1006349"];
                results := None |}
             [lit "r1006349"; lit "r1006370"; lit "r1006349"]
             (augmentInputDataWithResults_inr repeated_state)
             eq_refl eq_refl).
  vm_compute. reflexivity.
Defined.

(** ** How a run ends *)

Section Endings.

Context {DB E : Type}.
Variable t_any : DB -> jsstring -> DB * (E + list jsstring).
Variable connect : DB -> DB * option E.

(** X9. What makes a run fail, in the order the run meets it.  A processed
    row without a cell in the record-number column is found before the
    store is used: the run ends with the [TypeError] and the store has not
    been touched.  With all these cells there, a refused connection ends the
    run with the error of the store before any query is sent.  A rejected
    query ends the run with the error of that query.  In each case the exit
    status is 1; and a run with exit status 0 had all the cells, its
    connection, and an answer to every query it sent. *)
Theorem failures_of_a_run (o : options) (data : list (list jsstring))
    (w : world DB E) :
  ((∃ i d, data !! i = Some d ∧ processed o i d
           ∧ index d (recordNumberColumn o) = None)
   -> main t_any connect o data w = (w, inl TypeError)
      ∧ exit_code (main t_any connect o data w).2 = 1)
  ∧ (∀ e,
       (∀ i d, data !! i = Some d -> processed o i d ->
               is_Some (index d (recordNumberColumn o))) ->
       (connect (db w)).2 = Some e ->
       main t_any connect o data w
       = ({| db := (connect (db w)).1; queries := queries w |},
          inl (StoreError e))
       ∧ exit_code (main t_any connect o data w).2 = 1)
  ∧ (∀ q e,
       (q, inl e) ∈ sent w (main t_any connect o data w).1 ->
       (main t_any connect o data w).2 = inl (StoreError e)
       ∧ exit_code (main t_any connect o data w).2 = 1)
  ∧ (exit_code (main t_any connect o data w).2 = 0 ->
     (∀ i d, data !! i = Some d -> processed o i d ->
             is_Some (index d (recordNumberColumn o)))
     ∧ (connect (db w)).2 = None
     ∧ ∀ qa, qa ∈ sent w (main t_any connect o data w).1 ->
             ∃ fs, qa.2 = inr fs).
Proof.
  split; [|split; [|split]].
  - intros Hex. rewrite main_eq.
    by rewrite (proj2 (augmentInputDataWithRecordNumbers_inl (E:=E) o data
                         TypeError) (conj eq_refl Hex)).
  - intros e Hcells Hconnect. rewrite main_eq.
    rewrite (proj2 (augmentInputDataWithRecordNumbers_inr (E:=E) o data _)
               (conj eq_refl Hcells)).
    rewrite findUosCode_eq.
    destruct (connect (db w)) as [db' [e'|]]; [|done].
    cbn [fst snd] in *. by injection Hconnect as ->.
  - intros q e. rewrite main_world, main_outcome.
    destruct (augmentInputDataWithRecordNumbers o (loadInputFile data))
      as [err|rows] eqn:Haug.
    { rewrite sent_same. by intros ?%elem_of_nil. }
    destruct (findUosCode t_any connect rows w) as [w' [err|st]] eqn:Hf;
      cbn [fst snd].
    + apply findUosCode_inl in Hf
        as [(e0 & _ & _ & ->)|(_ & ok & rn & e0 & -> & -> & _ & Hok)].
      { by intros ?%elem_of_nil. }
      intros [Hq|Hq%list_elem_of_singleton]%elem_of_app;
        [|by injection Hq as _ ->].
      apply list_elem_of_lookup in Hq as [j Hj].
      by destruct (Forall2_lookup_r _ _ _ _ _ Hok Hj) as (? & _ & ? & ?).
    + apply findUosCode_inr in Hf as [_ Hall].
      intros [j Hj]%list_elem_of_lookup.
      by destruct (Forall2_lookup_r _ _ _ _ _ Hall Hj) as (? & _ & ? & ? & _).
  - rewrite main_world, main_outcome.
    destruct (augmentInputDataWithRecordNumbers o (loadInputFile data))
      as [err|rows] eqn:Haug; [done|].
    apply augmentInputDataWithRecordNumbers_inr in Haug as [-> Hcells].
    destruct (findUosCode t_any connect _ w) as [w' [err|st]] eqn:Hf;
      cbn [fst snd exit_code]; [done|].
    intros _. split; [done|]. split; [by eapply findUosCode_connected|].
    apply findUosCode_inr in Hf as [_ Hall].
    intros qa [j Hj]%list_elem_of_lookup.
    destruct (Forall2_lookup_r _ _ _ _ _ Hall Hj) as (? & _ & fs & -> & _).
    by exists fs.
Qed.

(** X10. When no processed row has a record number in its record-number
    cell (so for the empty input, and when all rows are skipped) the run
    sends no query, but it still takes the connection of the task and ends
    as the connection does: refused, the run fails with the error of the
    store and writes nothing; given, the rows are written as the mode does
    for rows without results. *)
Theorem nothing_to_resolve (o : options) (data : list (list jsstring))
    (w : world DB E) :
  (∀ i d,
     data !! i = Some d -> processed o i d ->
     ∃ cell, index d (recordNumberColumn o) = Some cell
             ∧ exec_all recordNumberRegEx 0 cell = []) ->
  main t_any connect o data w
  = ({| db := (connect (db w)).1; queries := queries w |},
     match (connect (db w)).2 with
     | Some e => inl (StoreError e)
     | None =>
         inr (imap (fun i (d : list jsstring) =>
                      if decide (i < Z.to_nat (skip o))%nat then
                        if wantsPrependedResults o then Some <$> d
                        else Some [] :: (Some <$> d)
                      else
                        if wantsPrependedResults o then Some [] :: (Some <$> d)
                        else Some <$> d)
                   data)
     end).
Proof.
  intros Hnone. rewrite main_eq.
  assert (augmentInputDataWithRecordNumbers (E:=E) o (loadInputFile data)
          = inr (imap (extracted o) data)) as ->.
  { apply augmentInputDataWithRecordNumbers_inr. split; [done|].
    intros i d Hd Hp. destruct (Hnone i d Hd Hp) as (cell & -> & _).
    by eexists. }
  rewrite findUosCode_eq.
  assert (uniqSetOfRecordNumbers (imap (extracted o) data) = []) as ->.
  { apply elem_of_nil_inv. intros rn.
    intros (i & d & cell & Hd & Hp & Hc & Hrn)
      %elem_of_uniqSetOfRecordNumbers_extracted.
    destruct (Hnone i d Hd Hp) as (cell' & Hc' & Hnil).
    rewrite Hc in Hc'. injection Hc' as <-. rewrite Hnil in Hrn.
    by apply elem_of_nil in Hrn. }
  destruct (connect (db w)) as [db' [e|]]; [done|].
  cbn [task fst snd]. unfold ret. cbv beta iota zeta. cbn [mapping].
  do 2 f_equal.
  assert (∀ i d, data !! i = Some d ->
                 assembled ∅ (extracted o i d)
                 = {| cells := d; recordNumbers := None; results := None |})
    as Hrow.
  { intros i d Hd. unfold assembled, extracted. cbn [recordNumbers].
    destruct (decide (processed o i d)) as [Hp|]; [|done].
    destruct (Hnone i d Hd Hp) as (cell & -> & Hnil). option_step.
    by rewrite (proj2 (String_match_None _ _) Hnil). }
  apply list_eq. intros i.
  destruct (wantsPrependedResults o).
  - rewrite outputInNewColumn_imap. cbn [inputData].
    rewrite map_fmap, !list_lookup_imap, list_lookup_fmap, list_lookup_imap.
    destruct (data !! i) as [d|] eqn:Hd; [|done]. option_step.
    rewrite (Hrow i d Hd). unfold written_new. cbn [cells results].
    rewrite !map_fmap. by destruct (decide _).
  - rewrite outputInExistingColumn_imap. cbn [inputData].
    rewrite map_fmap, !list_lookup_imap, list_lookup_fmap, list_lookup_imap.
    destruct (data !! i) as [d|] eqn:Hd; [|done]. option_step.
    rewrite (Hrow i d Hd). unfold written_existing. cbn [cells results].
    rewrite !map_fmap. by destruct (decide _).
Qed.

End Endings.

(** A missing cell is met before the store, a refused connection before any
    query. *)
Lemma failures_of_a_run_witness :
  main example_store refusing_connect
       {| skip := 1; column := 3; result_column := 0 |} example_data start
  = (start, inl TypeError)
  ∧ main example_store refusing_connect example_options example_data start
    = (start, inl (StoreError 503%nat))
  ∧ (main example_store example_connect example_options rejected_data
          start).2
    = inl (StoreError 500%nat).
Proof.
  split; [|split].
  - apply (proj1 (failures_of_a_run example_store refusing_connect
                    {| skip := 1; column := 3; result_column := 0 |}
                    example_data start)).
    exists 1%nat, [lit "r1006349 r1006370"; lit "x"].
    split; [reflexivity|]. split; [|reflexivity].
    split; [vm_compute; lia|left; reflexivity].
  - apply (proj1 (proj2 (failures_of_a_run example_store refusing_connect
                           example_options example_data start)) 503%nat).
    + intros i d Hd _. destruct i as [|[|[|[|i]]]]; try discriminate Hd;
        injection Hd as <-; eexists; reflexivity.
    + reflexivity.
  - apply (proj1 (proj2 (proj2 (failures_of_a_run example_store
                                  example_connect example_options
                                  rejected_data start)))
             (lit "1234567") 500%nat).
    vm_compute. apply list_elem_of_lookup. by exists 1%nat.
Defined.

(** Two rows without a record number: no query either way, but the outcome
    is that of the connection. *)
Lemma nothing_to_resolve_witness :
  main example_store example_connect example_options
       [[lit "id"; lit "name"]; [lit "none"; lit "z"]] start
  = (start,
     inr [ [Some (lit "id"); Some (lit "name")];
           [Some []; Some (lit "none"); Some (lit "z")] ])
  ∧ main example_store refusing_connect example_options
         [[lit "id"; lit "name"]; [lit "none"; lit "z"]] start
    = (start, inl (StoreError 503%nat)).
Proof.
  assert (∀ i d,
            [[lit "id"; lit "name"]; [lit "none"; lit "z"]] !! i = Some d ->
            processed example_options i d ->
            ∃ cell, index d (recordNumberColumn example_options) = Some cell
                    ∧ exec_all recordNumberRegEx 0 cell = []) as Hnone.
  { intros i d Hd [Hskip _]. destruct i as [|[|i]].
    - vm_compute in Hskip. lia.
    - injection Hd as <-. exists (lit "none"). split; reflexivity.
    - discriminate Hd. }
  split.
  - apply (nothing_to_resolve example_store example_connect example_options
             [[lit "id"; lit "name"]; [lit "none"; lit "z"]] start Hnone).
  - apply (nothing_to_resolve example_store refusing_connect example_options
             [[lit "id"; lit "name"]; [lit "none"; lit "z"]] start Hnone).
Defined.

(** ** The rows written *)

Lemma array_set_hole (d : list jsstring) (rc : Z) (s : jsstring) (j : nat) :
  array_set (Some <$> d) rc s !! j = Some None ->
  (length d <= j < Z.to_nat rc)%nat ∧ rc < 4294967295.
Proof.
  assert (∀ k, (Some <$> d) !! k ≠ Some None) as Hfull.
  { intros k. rewrite list_lookup_fmap. by destruct (d !! k). }
  destruct (decide (rc < 0 ∨ 4294967295 <= rc)) as [Hrc|Hrc].
  { rewrite array_set_no_index by done. by intros ?%Hfull. }
  unfold array_set.
  destruct (Z.ltb_spec rc 0) as [?|_]; [lia|].
  destruct (Z.leb_spec 4294967295 rc) as [?|?]; [lia|]. cbn [orb].
  rewrite length_fmap. cbv zeta.
  destruct (Nat.ltb_spec (Z.to_nat rc) (length d)) as [Hn|Hn].
  - destruct (decide (j = Z.to_nat rc)) as [->|Hne].
    + by rewrite list_lookup_insert_eq by (rewrite length_fmap; lia).
    + rewrite list_lookup_insert_ne by done. by intros ?%Hfull.
  - destruct (decide (j < length d)%nat) as [Hlt|Hge].
    { rewrite lookup_app_l by (by rewrite length_fmap). by intros ?%Hfull. }
    rewrite lookup_app_r by (rewrite length_fmap; lia). rewrite length_fmap.
    destruct (decide (j < Z.to_nat rc)%nat) as [Hj|Hj]; [lia|].
    rewrite lookup_app_r by (rewrite length_replicate; lia).
    rewrite length_replicate.
    destruct (j - length d - (Z.to_nat rc - length d))%nat as [|n] eqn:Hn';
      [done|]. by destruct n.
Qed.

Lemma array_set_holes (d : list jsstring) (rc : Z) (s : jsstring) (j : nat) :
  (length d <= j < Z.to_nat rc)%nat -> rc < 4294967295 ->
  array_set (Some <$> d) rc s !! j = Some None.
Proof.
  intros Hj Hrc. unfold array_set.
  destruct (Z.ltb_spec rc 0) as [?|_]; [lia|].
  destruct (Z.leb_spec 4294967295 rc) as [?|_]; [lia|]. cbn [orb].
  rewrite length_fmap. cbv zeta.
  destruct (Nat.ltb_spec (Z.to_nat rc) (length d)) as [Hn|Hn]; [lia|].
  rewrite lookup_app_r by (rewrite length_fmap; lia). rewrite length_fmap.
  rewrite lookup_app_l by (rewrite length_replicate; lia).
  apply lookup_replicate_2. lia.
Qed.

Section Written.

Context {DB E : Type}.
Variable t_any : DB -> jsstring -> DB * (E + list jsstring).
Variable connect : DB -> DB * option E.

(** The row at a position of the output of a run that ended well, from the
    mapping of its pass. *)
Lemma main_row o data w w' out :
  main t_any connect o data w = (w', inr out) ->
  ∃ st,
    findUosCode t_any connect (imap (extracted o) data) w = (w', inr st)
    ∧ (∀ i d, data !! i = Some d -> processed o i d ->
              is_Some (index d (recordNumberColumn o)))
    ∧ ∀ i,
        out !! i
        = (fun d =>
             (if wantsPrependedResults o then written_new o i
              else written_existing o i)
               {| cells := d;
                  recordNumbers := recordNumbers (extracted o i d);
                  results :=
                    (fun rns =>
                       first_occurrences
                         (flatten_resolutions
                            (map (fun rn => mapping st !! rn) rns)))
                      <$> recordNumbers (extracted o i d) |})
            <$> data !! i.
Proof.
  intros (st & Hf & Hcells & ->)%main_inr. exists st.
  split; [done|]. split; [done|].
  intros i. rewrite list_lookup_imap.
  destruct (data !! i) as [d|]; [|done]. option_step. do 2 f_equal.
  unfold assembled.
  destruct (recordNumbers (extracted o i d)) eqn:Hrns; option_step.
  - unfold set_results. by rewrite Hrns.
  - unfold extracted in *. cbn [recordNumbers] in Hrns. by rewrite Hrns.
Qed.

(** X11. A row is written with a hole only in in-place mode, when the
    result column is an array index (below 2^32 - 1) that lies past the end
    of a row that gets results: the holes are exactly the cells between the
    end of the row and the result column.  In insert mode, for every other
    row, and for a result column from 2^32 - 1 on, each cell written is a
    string. *)
Theorem holes_only_before_a_far_result_column (o : options)
    (data : list (list jsstring)) (w w' : world DB E)
    (out : list written) (i : nat) (d : list jsstring) :
  main t_any connect o data w = (w', inr out) ->
  data !! i = Some d ->
  ∃ y,
    out !! i = Some y
    ∧ ∀ j,
        y !! j = Some None
        <-> wantsPrependedResults o = false
            ∧ processed o i d
            ∧ (∃ cell, index d (recordNumberColumn o) = Some cell
                       ∧ exec_all recordNumberRegEx 0 cell ≠ [])
            ∧ (length d <= j < Z.to_nat (resultColumn o))%nat
            ∧ resultColumn o < 4294967295.
Proof.
  intros (st & _ & _ & Hrow)%main_row Hd.
  eexists. split; [by rewrite Hrow, Hd|]. intros j.
  assert (∀ (l : list jsstring) k, (Some <$> l) !! k ≠ Some None) as Hfull.
  { intros l k. rewrite list_lookup_fmap. by destruct (l !! k). }
  assert (∀ (s : jsstring) (l : list jsstring) k,
            (Some s :: (Some <$> l)) !! k ≠ Some None) as Hfull'.
  { intros s l [|k]; [done|]. apply Hfull. }
  destruct (wantsPrependedResults o) eqn:Hmode.
  - split; [|by intros [? _]].
    unfold written_new. cbn [cells results].
    rewrite !map_fmap. destruct (decide _); [by intros ?%Hfull|].
    match goal with
    | |- match ?r with Some _ => _ | None => _ end !! _ = _ -> _ =>
        destruct r
    end; by intros ?%Hfull'.
  - unfold written_existing. cbn [cells results]. rewrite !map_fmap.
    destruct (decide (i < Z.to_nat (skip o))%nat) as [Hi|Hi].
    { split; [by intros ?%Hfull'|].
      intros (_ & [Hp _] & _). lia. }
    unfold extracted. cbn [recordNumbers].
    destruct (decide (processed o i d)) as [Hp|Hp];
      [|split; [by intros ?%Hfull|by intros (_ & ? & _)]].
    destruct (index d (recordNumberColumn o)) as [cell|] eqn:Hc;
      [|split; [by intros ?%Hfull|by intros (_ & _ & (? & ? & _) & _)]].
    option_step.
    destruct (String_match recordNumberRegEx cell) as [rns|] eqn:Hrns;
      option_step.
    + apply String_match_Some in Hrns as [<- Hne]. split.
      * intros [Hj Hrc]%array_set_hole.
        split; [done|]. split; [done|]. split; [by exists cell|done].
      * intros (_ & _ & _ & Hj & Hrc). by apply array_set_holes.
    + apply String_match_None in Hrns. split; [by intros ?%Hfull|].
      intros (_ & _ & (cell' & [= <-] & Hne) & _). done.
Qed.

(** X12. In insert mode, in a run that ends well, every row past the
    skipped ones is written with exactly one new cell before its own
    cells: the blank string when its record-number cell has no record
    number, and otherwise the joined results of its record numbers, each of
    which has its query among those sent, the mapping of the pass holding
    the resolution of the answer.  A skipped row is written as it was
    read. *)
Theorem insert_mode_rows (o : options) (data : list (list jsstring))
    (w w' : world DB E) (out : list written) :
  wantsPrependedResults o = true ->
  main t_any connect o data w = (w', inr out) ->
  ∃ st,
    findUosCode t_any connect (imap (extracted o) data) w = (w', inr st)
    ∧ ∀ i d,
        data !! i = Some d ->
        ∃ y,
          out !! i = Some y
          ∧ ((i < Z.to_nat (skip o))%nat -> y = Some <$> d)
          ∧ ((Z.to_nat (skip o) <= i)%nat ->
             ∃ cell,
               index d (recordNumberColumn o) = Some cell
               ∧ (∀ rn,
                    rn ∈ exec_all recordNumberRegEx 0 cell ->
                    ∃ fs, (substr1 rn, inr fs) ∈ sent w w'
                          ∧ mapping st !! rn = Some (resolve rn fs))
               ∧ y = Some
                       (match exec_all recordNumberRegEx 0 cell with
                        | [] => []
                        | rns =>
                            join (lit ", ")
                                 (first_occurrences
                                    (flatten_resolutions
                                       (map (fun rn => mapping st !! rn)
                                            rns)))
                        end)
                     :: (Some <$> d)).
Proof.
  intros Hmode (st & Hf & Hcells & Hrow)%main_row.
  exists st. split; [done|]. intros i d Hd.
  eexists. split; [by rewrite Hrow, Hd|].
  rewrite Hmode. unfold written_new. cbn [cells results]. rewrite !map_fmap.
  split.
  - intros Hi. by rewrite decide_True.
  - intros Hi. rewrite decide_False by lia.
    assert (processed o i d) as Hp by (split; [done|by left]).
    destruct (Hcells i d Hd Hp) as [cell Hc]. exists cell. split; [done|].
    split.
    + intros rn Hrn.
      eapply (findUosCode_entry _ _ _ _ _ _ (extracted o i d));
        [exact Hf| | |exact Hrn].
      * apply elem_of_lookup_imap. by exists i, d.
      * unfold extracted. cbn [recordNumbers].
        rewrite decide_True by done. rewrite Hc. option_step.
        apply String_match_Some. split; [done|].
        intros Hnil. rewrite Hnil in Hrn. by apply elem_of_nil in Hrn.
    + unfold extracted. cbn [recordNumbers].
      rewrite decide_True by done. rewrite Hc. option_step.
      unfold String_match.
      by destruct (exec_all recordNumberRegEx 0 cell).
Qed.

End Written.

(** A result column two cells past the end of a row leaves two holes. *)
Lemma holes_only_before_a_far_result_column_witness :
  ∃ w' out y,
    main example_store example_connect
         {| skip := 1; column := 1; result_column := 5 |} example_data start
    = (w', inr out)
    ∧ out !! 1%nat = Some y
    ∧ ∀ j, y !! j = Some None <-> (2 <= j < 4)%nat.
Proof.
  destruct (main example_store example_connect
              {| skip := 1; column := 1; result_column := 5 |}
              example_data start) as [w' [e|out]] eqn:H.
  { exfalso. vm_compute in H. discriminate H. }
  destruct (holes_only_before_a_far_result_column example_store
              example_connect
              {| skip := 1; column := 1; result_column := 5 |}
              example_data start w' out 1%nat
              [lit "r1006349 r1006370"; lit "x"] H eq_refl)
    as (y & Hy & Hholes).
  exists w', out, y. split; [reflexivity|]. split; [exact Hy|].
  intros j. rewrite (Hholes j). split.
  - intros (_ & _ & _ & Hj & _). exact Hj.
  - intros Hj. split; [reflexivity|].
    split; [split; [vm_compute; lia|right; reflexivity]|].
    split; [|split; [exact Hj|reflexivity]].
    exists (lit "r1006349 r1006370"). split; [reflexivity|].
    vm_compute. discriminate.
Defined.

(** Insert mode on the example: the header is written as read, the row with
    two record numbers gets their results in a new first cell, the row
    without a record number a blank one. *)
Lemma insert_mode_rows_witness :
  ∃ w' out,
    main example_store example_connect example_options example_data start
    = (w', inr out)
    ∧ out !! 0%nat = Some [Some (lit "id"); Some (lit "name")]
    ∧ out !! 1%nat
      = Some [Some (lit "AAAA0000, ABCD1234, r1006370");
              Some (lit "r1006349 r1006370"); Some (lit "x")]
    ∧ ∃ y, out !! 3%nat = Some y
           ∧ y = [Some []; Some (lit "none"); Some (lit "z")].
Proof.
  destruct (main example_store example_connect example_options example_data
              start) as [w' [e|out]] eqn:H.
  { exfalso. vm_compute in H. discriminate H. }
  exists w', out. split; [reflexivity|].
  destruct (insert_mode_rows example_store example_connect example_options
              example_data start w' out eq_refl H) as (st & Hf & Hrows).
  vm_compute in Hf. injection Hf as Hw <-.
  split; [|split].
  - destruct (Hrows 0%nat _ eq_refl) as (y & -> & Hskip & _).
    f_equal. apply Hskip. vm_compute. lia.
  - destruct (Hrows 1%nat _ eq_refl) as (y & -> & _ & Hrow).
    destruct Hrow as (cell & Hcell & _ & ->); [vm_compute; lia|].
    injection Hcell as <-. vm_compute. reflexivity.
  - destruct (Hrows 3%nat _ eq_refl) as (y & Hy & _ & Hrow).
    exists y. split; [exact Hy|].
    destruct Hrow as (cell & Hcell & _ & ->); [vm_compute; lia|].
    injection Hcell as <-. vm_compute. reflexivity.
Defined.

(** ** More on the codes of a record *)

(** X13. The order in which the store returns the course fields of a record
    matters for the fallback only: the codes found are the same for any
    order of the fields, and so is the resolution when there is a code or
    when the first field is the same. *)
Theorem field_order_matters_for_fallback_only
    (recordNumber : jsstring) (courseFields courseFields' : list jsstring) :
  courseFields ≡ₚ courseFields' ->
  uosCodes courseFields = uosCodes courseFields'
  ∧ (uosCodes courseFields ≠ [] ∨ head courseFields = head courseFields' ->
     resolve recordNumber courseFields = resolve recordNumber courseFields').
Proof.
  intros Hperm.
  assert (uosCodes courseFields = uosCodes courseFields') as Heq.
  { apply str_lt_unique; [apply uosCodes_sorted..|].
    intros c. rewrite !elem_of_uosCodes.
    by setoid_rewrite Hperm. }
  split; [done|]. unfold resolve. rewrite <- Heq.
  destruct (uosCodes courseFields) as [|c cs]; cbn [length Nat.ltb Nat.leb];
    [|done].
  intros [?|Hhead]; [done|].
  destruct courseFields as [|f fs], courseFields' as [|f' fs']; try done.
  by injection Hhead as ->.
Qed.

(** X14. When every code in the course fields is written without
    whitespace or with one space between the letters and the digits, the
    codes of the record are all in the form of four uppercase letters and
    four digits, with nothing between them. *)
Theorem codes_with_one_space_are_normalized (courseFields : list jsstring) :
  (∀ f m,
     f ∈ courseFields -> m ∈ exec_all uosCodeRegEx 0 f ->
     length m = 8%nat ∨ (length m = 9%nat ∧ m !! 4%nat = Some 32%N)) ->
  ∀ c,
    c ∈ uosCodes courseFields ->
    ∃ u d,
      c = u ++ d
      ∧ length u = 4%nat ∧ Forall (fun ch => is_upper ch) u
      ∧ length d = 4%nat ∧ Forall (fun ch => is_digit ch) d.
Proof.
  intros Hone c (f & m & Hf & Hm & ->)%elem_of_uosCodes.
  assert (is_uos_code m) as Hcode.
  { pose proof (proj2 (uosCodes_scan f _) eq_refl) as Hscan.
    apply scan_Forall in Hscan. rewrite Forall_forall in Hscan.
    by apply Hscan. }
  apply normalize_match_lengths in Hcode
    as (u & ws & d & -> & Hlu & Hu & Hws & Hld & Hd & ->).
  exists u, d. split; [|done].
  destruct (Hone f _ Hf Hm) as [Hlen|[Hlen H4]].
  - rewrite !length_app in Hlen.
    destruct ws; [done|]. simpl in Hlen. lia.
  - rewrite !length_app in Hlen.
    destruct ws as [|c0 [|c1 ws]]; simpl in Hlen; try lia.
    rewrite lookup_app_r in H4 by lia. rewrite Hlu in H4.
    cbn in H4. injection H4 as ->. cbn [replace_first].
    by rewrite N.eqb_refl.
Qed.

Lemma field_order_matters_for_fallback_only_witness :
  uosCodes [lit "ABCD 1234"; lit "no code"; lit "AAAA0000"]
  = uosCodes [lit "no code"; lit "ABCD 1234"; lit "AAAA0000"].
Proof.
  apply (field_order_matters_for_fallback_only (lit "r1006349")
           [lit "ABCD 1234"; lit "no code"; lit "AAAA0000"]
           [lit "no code"; lit "ABCD 1234"; lit "AAAA0000"]).
  apply Permutation_swap.
Defined.

Lemma codes_with_one_space_are_normalized_witness :
  ∃ u d,
    lit "ABCD1234" = u ++ d
    ∧ length u = 4%nat ∧ Forall (fun ch => is_upper ch) u
    ∧ length d = 4%nat ∧ Forall (fun ch => is_digit ch) d.
Proof.
  apply (codes_with_one_space_are_normalized
           [lit "ABCD 1234 and ABCD1234"]).
  - intros f m Hf Hm. apply list_elem_of_singleton in Hf. subst f.
    apply list_elem_of_In in Hm. vm_compute in Hm.
    destruct Hm as [<-|[<-|[]]].
    + right. split; reflexivity.
    + left. reflexivity.
  - apply list_elem_of_In. vm_compute. left. reflexivity.
Defined.
